(** * layer_linter: the contract checker of [layer_linter/contract.py]

    A shallow embedding of [Contract], its violation detector
    ([check_dependencies]) and its illegal-path aggregator
    ([_update_illegal_dependencies]), of [is_kept] and of
    [contract_from_yaml], followed by the properties proved about them. *)

From Stdlib Require Import Ascii String.
From stdpp Require Import base option list gmap sets strings.

Open Scope string_scope.
Open Scope list_scope.

(** ** Exceptions and results

    A Python call either returns a value or raises.  Only the exceptions
    that [contract.py] can raise on well-typed arguments are listed. *)

Inductive exn : Type :=
  | ValueError
  | KeyError
  | AttributeError
  | RuntimeError.

Inductive result (A : Type) : Type :=
  | Returned (a : A)
  | Raised (e : exn).
Arguments Returned {A} a.
Arguments Raised {A} e.

Definition bind {A B : Type} (m : result A) (k : A → result B) : result B :=
  match m with
  | Returned a => k a
  | Raised e => Raised e
  end.

Notation "x ←! m ; k" := (bind m (λ x, k))
  (at level 100, m at next level, k at level 200, right associativity,
   format "x  ←!  m ;  '/' k").

(** [for x in xs: st = body(st, x)], stopping at the first exception. *)
Fixpoint for_each {S X : Type} (body : S → X → result S) (xs : list X) (st : S)
  : result S :=
  match xs with
  | [] => Returned st
  | x :: xs' => st' ←! body st x; for_each body xs' st'
  end.

(** ** Data model *)

(** A path is a list of module names; [set(path)] is its set of names. *)
Abbreviation Path := (list string).

Definition set_of (path : Path) : gset string := list_to_set path.

(** [class Layer] defines neither [__eq__] nor [__hash__]: [==], and with it
    [list.index] and [list.remove], compare object identity.  [ident] stands
    for [id(layer)]. *)
Record Layer : Type := mkLayer { ident : nat; name : string }.

Definition Layer_eqb (a b : Layer) : bool := Nat.eqb (ident a) (ident b).

(** Modelled from the spec: [ImportPath], imported from [.dependencies]
    (not part of this development), "an importer/imported module-name
    pair"; [contract.py] only constructs it from the two names. *)
Record ImportPath : Type := mkImportPath { importer : string; imported : string }.

(** Modelled from the spec: the part of [DependencyGraph] (also from
    [.dependencies]) that the contract calls.  The graph is not modified
    while a contract is checked, so its two methods are functions.
    [find_path] answers [None] or a list; the keyword arguments are taken
    in the order [upstream], [downstream], [ignore_paths]. *)
Record DependencyGraph : Type := mkGraph {
  get_descendants : string → list string;
  find_path : string → string → list ImportPath → option Path
}.

(** [illegal_dependencies] is [None] while the attribute does not exist. *)
Record Contract : Type := mkContract {
  contract_name : string;
  packages : list string;
  layers : list Layer;
  whitelisted_paths : list ImportPath;
  recursive : bool;
  illegal_dependencies : option (list Path)
}.

Definition set_illegal_dependencies (self : Contract) (v : list Path) : Contract :=
  {| contract_name := contract_name self;
     packages := packages self;
     layers := layers self;
     whitelisted_paths := whitelisted_paths self;
     recursive := recursive self;
     illegal_dependencies := Some v |}.

(** Reading [self.illegal_dependencies]. *)
Definition get_illegal_dependencies (self : Contract) : result (list Path) :=
  match illegal_dependencies self with
  | Some v => Returned v
  | None => Raised AttributeError
  end.

(** [Contract.__init__]; [whitelisted_paths=None] is [None] here. *)
Definition Contract_init (name : string) (packages : list string)
    (layers : list Layer) (whitelisted_paths : option (list ImportPath))
    (recursive : bool) : Contract :=
  {| contract_name := name;
     packages := packages;
     layers := layers;
     whitelisted_paths :=
       match whitelisted_paths with
       | Some (w :: ws) => w :: ws
       | _ => []
       end;
     recursive := recursive;
     illegal_dependencies := None |}.

(** ** The illegal-path aggregator *)

(** [a.issubset(b)] on the sets of two paths. *)
Definition issubset (a b : gset string) : bool := bool_decide (a ⊆ b).

(** One round of the loop over [illegal_dependencies_copy]; the state is
    [(paths_to_remove, add_path)]. *)
Definition compare_existing (new_path_set : gset string)
    (st : list Path * bool) (existing_path : Path) : list Path * bool :=
  let '(paths_to_remove, add_path) := st in
  let existing_path_set := set_of existing_path in
  if issubset new_path_set existing_path_set then
    (paths_to_remove ++ [existing_path], true)
  else if issubset existing_path_set new_path_set then
    (paths_to_remove, false)
  else
    (paths_to_remove, add_path).

(** The new value of [self.illegal_dependencies] computed by
    [_update_illegal_dependencies] from the old one. *)
Definition updated_illegal_dependencies (old : list Path) (path : Path) : list Path :=
  let new_path_set := set_of path in
  let illegal_dependencies_copy := old in
  let '(paths_to_remove, add_path) :=
    fold_left (compare_existing new_path_set) illegal_dependencies_copy ([], true) in
  let kept := filter (λ i, i ∉ paths_to_remove) old in
  if add_path then kept ++ [path] else kept.

Definition _update_illegal_dependencies (self : Contract) (path : Path)
  : result Contract :=
  old ←! get_illegal_dependencies self;
  Returned (set_illegal_dependencies self (updated_illegal_dependencies old path)).

(** [is_kept]: the [AttributeError] of the missing attribute is caught and
    a [RuntimeError] raised in its place. *)
Definition is_kept (self : Contract) : result bool :=
  match get_illegal_dependencies self with
  | Returned v => Returned (Nat.eqb (length v) 0)
  | Raised AttributeError => Raised RuntimeError
  | Raised e => Raised e
  end.

(** ** The violation detector *)

(** ["{}.{}".format(package, layer.name)] *)
Definition layer_module_name (package : string) (layer : Layer) : string :=
  package +:+ "." +:+ name layer.

(** [l.index(x)]: the first position holding [x], [ValueError] if none. *)
Fixpoint list_index (x : Layer) (l : list Layer) : result nat :=
  match l with
  | [] => Raised ValueError
  | y :: l' =>
      if Layer_eqb y x then Returned 0
      else i ←! list_index x l'; Returned (S i)
  end.

(** [l.remove(x)]: [l] without the first element equal to [x],
    [ValueError] if there is none. *)
Fixpoint list_remove (x : Layer) (l : list Layer) : result (list Layer) :=
  match l with
  | [] => Raised ValueError
  | y :: l' =>
      if Layer_eqb y x then Returned l'
      else r ←! list_remove x l'; Returned (y :: r)
  end.

(** [path[1:-1]] *)
Definition interior (path : Path) : Path :=
  drop 1 (take (length path - 1) path).

Definition _get_layers_downstream_of (self : Contract) (layer : Layer)
  : result (list Layer) :=
  i ←! list_index layer (layers self);
  Returned (reverse (take i (layers self))).

Definition _get_modules_in_layer (self : Contract) (layer : Layer)
    (package : string) (dependencies : DependencyGraph) : list string :=
  let layer_module := layer_module_name package layer in
  let modules := [layer_module] in
  modules ++ get_descendants dependencies layer_module.

Definition _get_modules_in_downstream_layers (self : Contract) (layer : Layer)
    (package : string) (dependencies : DependencyGraph) : result (list string) :=
  downstream ←! _get_layers_downstream_of self layer;
  Returned
    (fold_left
       (λ modules downstream_layer,
          modules ++ [layer_module_name package downstream_layer])
       downstream []).

Definition _path_is_via_another_layer (self : Contract) (path : Path)
    (current_layer : Layer) (package : string) : result bool :=
  other_layers ←! list_remove current_layer (layers self);
  let layer_modules := map (layer_module_name package) other_layers in
  let modules_via := interior path in
  Returned
    (existsb (λ path_module, bool_decide (path_module ∈ layer_modules))
       modules_via).

(** The body of the two nested loops of
    [_check_layer_does_not_import_downstream]: one
    (upstream module, downstream module) pair.  [if path] holds for a
    non-empty list only. *)
Definition check_pair (layer : Layer) (package : string)
    (dependencies : DependencyGraph) (upstream_module : string)
    (self : Contract) (downstream_module : string) : result Contract :=
  let path :=
    find_path dependencies downstream_module upstream_module
      (whitelisted_paths self) in
  match path with
  | Some (m :: ms) =>
      via ←! _path_is_via_another_layer self (m :: ms) layer package;
      if via then Returned self
      else _update_illegal_dependencies self (m :: ms)
  | _ => Returned self
  end.

Definition _check_layer_does_not_import_downstream (self : Contract)
    (layer : Layer) (package : string) (dependencies : DependencyGraph)
  : result Contract :=
  let modules_in_this_layer :=
    _get_modules_in_layer self layer package dependencies in
  modules_in_downstream_layers ←!
    _get_modules_in_downstream_layers self layer package dependencies;
  for_each
    (λ self upstream_module,
       for_each (check_pair layer package dependencies upstream_module)
         modules_in_downstream_layers self)
    modules_in_this_layer self.

Definition check_dependencies (self : Contract) (dependencies : DependencyGraph)
  : result Contract :=
  let self := set_illegal_dependencies self [] in
  for_each
    (λ self package,
       for_each
         (λ self layer,
            _check_layer_does_not_import_downstream self layer package
              dependencies)
         (reverse (layers self)) self)
    (packages self) self.

(** ** Loading a contract *)

(** [s.split(sep)] for a non-empty [sep]: the pieces between the
    occurrences of [sep], found from left to right without overlap.
    [skip] counts the characters of a matched separator still to pass,
    [piece] is the piece read so far. *)
Fixpoint split_from (sep : string) (skip : nat) (piece : string) (s : string)
  : list string :=
  match s with
  | EmptyString => [piece]
  | String a s' =>
      match skip with
      | S k => split_from sep k piece s'
      | O =>
          if String.prefix sep s
          then piece :: split_from sep (String.length sep - 1) "" s'
          else split_from sep 0 (piece +:+ String a "") s'
      end
  end.

Definition str_split (s sep : string) : list string := split_from sep 0 "" s.

(** [importer, imported = whitelist_data.split(' <- ')] inside the [try]:
    unpacking anything but two pieces raises [ValueError], which the
    handler raises again with its own message. *)
Definition parse_whitelist_entry (whitelist_data : string) : result ImportPath :=
  match str_split whitelist_data " <- " with
  | [importer; imported] => Returned (mkImportPath importer imported)
  | _ => Raised ValueError
  end.

(** [data[k]] on the mapping read from the YAML file. *)
Definition getitem (data : gmap string (list string)) (k : string)
  : result (list string) :=
  match data !! k with
  | Some v => Returned v
  | None => Raised KeyError
  end.

(** [contract_from_yaml].  Every [Layer(layer_data)] is a new object; the
    one made in round [i] has identity [i].  [data['packages']] is read
    last, when the arguments of [Contract(...)] are evaluated. *)
Definition contract_from_yaml (key : string) (data : gmap string (list string))
  : result Contract :=
  layers_data ←! getitem data "layers";
  let layers := imap (λ i layer_data, mkLayer i layer_data) layers_data in
  whitelisted_paths ←!
    for_each
      (λ whitelisted_paths whitelist_data,
         edge ←! parse_whitelist_entry whitelist_data;
         Returned (whitelisted_paths ++ [edge]))
      (default [] (data !! "whitelisted_paths")) [];
  packages ←! getitem data "packages";
  Returned (Contract_init key packages layers (Some whitelisted_paths) false).

(** ** Notions used to state the properties *)

(** No recorded path's set of names is a strict subset of another's. *)
Definition no_strict_subset (ds : list Path) : Prop :=
  ∀ p q : Path, p ∈ ds → q ∈ ds → ¬ set_of p ⊂ set_of q.

(** The states of the list: empty after [check_dependencies] has reset
    it, then changed by [_update_illegal_dependencies] only. *)
Inductive recorded : list Path → Prop :=
  | recorded_nil : recorded []
  | recorded_update (ds : list Path) (path : Path) :
      recorded ds → recorded (updated_illegal_dependencies ds path).

(** The value of a call that returns, [d] for one that raises. *)
Definition value_or {A : Type} (d : A) (r : result A) : A :=
  match r with
  | Returned a => a
  | Raised _ => d
  end.

(** What one (upstream module, downstream module) pair submits to the
    aggregator: the path the graph answers, unless it is empty or goes
    through another layer. *)
Definition finding (c : Contract) (g : DependencyGraph) (layer : Layer)
    (package : string) (upstream_module downstream_module : string) : list Path :=
  match find_path g downstream_module upstream_module (whitelisted_paths c) with
  | Some (m :: ms) =>
      if value_or false (_path_is_via_another_layer c (m :: ms) layer package)
      then [] else [m :: ms]
  | _ => []
  end.

(** The paths submitted while one layer of one package is checked, in the
    order of the two loops. *)
Definition findings (c : Contract) (g : DependencyGraph) (package : string)
    (layer : Layer) : list Path :=
  upstream_module ← _get_modules_in_layer c layer package g;
  downstream_module ←
    value_or [] (_get_modules_in_downstream_layers c layer package g);
  finding c g layer package upstream_module downstream_module.

(** All paths submitted by [check_dependencies], in order. *)
Definition submitted (c : Contract) (g : DependencyGraph) : list Path :=
  package ← packages c;
  layer ← reverse (layers c);
  findings c g package layer.

(** ** The dependency graph of section 6 *)

#[global] Instance ImportPath_eq_dec : EqDecision ImportPath.
Proof. solve_decision. Defined.

(** Modelled from the spec: the import graph that [dependencies.py] (not
    part of this development) builds and a [DependencyGraph] answers
    from: its modules and its direct imports (importer, imported). *)
Record ImportGraph : Type := mkImportGraph {
  graph_modules : list string;
  graph_imports : list (string * string)
}.

(** Modelled from the spec: "one import chain (endpoints inclusive) showing
    that upstream imports downstream directly or transitively, ignoring any
    edge listed in ignore_paths". *)
Inductive import_chain (G : ImportGraph) (ignore_paths : list ImportPath)
  : string → string → Path → Prop :=
  | chain_direct (a b : string) :
      (a, b) ∈ graph_imports G → mkImportPath a b ∉ ignore_paths →
      import_chain G ignore_paths a b [a; b]
  | chain_step (a b d : string) (p : Path) :
      (a, b) ∈ graph_imports G → mkImportPath a b ∉ ignore_paths →
      import_chain G ignore_paths b d p →
      import_chain G ignore_paths a d (a :: p).

(** Modelled from the spec: "a strict descendant (nested sub-module or
    sub-package, any depth) of module": the name continues [module.]. *)
Definition is_descendant (module d : string) : bool :=
  String.prefix (module +:+ ".") d && negb (String.eqb d (module +:+ ".")).

(** Modelled from the spec: the contract of section 6 between a
    [DependencyGraph] and the import graph it stands for.  [get_descendants]
    lists the strict descendants among the modules; [find_path] answers an
    import chain when it answers a path, and answers "no path" only when
    there is no chain. *)
Record implements (g : DependencyGraph) (G : ImportGraph) : Prop := {
  get_descendants_spec (module d : string) :
    d ∈ get_descendants g module
    ↔ d ∈ graph_modules G ∧ is_descendant module d = true;
  find_path_sound (upstream downstream : string) (ignore_paths : list ImportPath)
      (p : Path) :
    find_path g upstream downstream ignore_paths = Some p →
    import_chain G ignore_paths upstream downstream p;
  find_path_complete (upstream downstream : string)
      (ignore_paths : list ImportPath) :
    find_path g upstream downstream ignore_paths = None →
    ∀ p, ¬ import_chain G ignore_paths upstream downstream p
}.

(** A codebase in which exactly one module imports another, and a
    [DependencyGraph] for it. *)
Definition single_import (modules : list string) (a b : string) : ImportGraph :=
  mkImportGraph modules [(a, b)].

Definition single_import_graph (modules : list string) (a b : string)
  : DependencyGraph :=
  mkGraph
    (λ module, filter (λ d, is_descendant module d = true) modules)
    (λ upstream downstream ignore_paths,
       if bool_decide (upstream = a ∧ downstream = b
                       ∧ mkImportPath a b ∉ ignore_paths)
       then Some [a; b] else None).

(** The pairs [check_dependencies] asks the graph about: the root module
    of a layer and a module of a strictly higher layer of one package. *)
Definition queried (c : Contract) (g : DependencyGraph) (D U : string) : Prop :=
  ∃ package i j lo hi,
    package ∈ packages c
    ∧ layers c !! i = Some lo ∧ layers c !! j = Some hi ∧ i < j
    ∧ D = layer_module_name package lo
    ∧ U ∈ _get_modules_in_layer c hi package g.

(** ** A small project *)

Definition low : Layer := mkLayer 0 "low".
Definition mid : Layer := mkLayer 1 "mid".
Definition high : Layer := mkLayer 2 "high".

Definition app_contract : Contract :=
  Contract_init "layering" ["app"] [low; mid; high] None false.

Definition app_modules : list string :=
  ["app.low"; "app.low.sub"; "app.mid"; "app.high"; "app.high.views"].

(** [app.low.sub] imports [app.high]. *)
Definition sub_imports_high : DependencyGraph :=
  single_import_graph app_modules "app.low.sub" "app.high".

(** [app.low] imports [app.high.views]. *)
Definition low_imports_views : DependencyGraph :=
  single_import_graph app_modules "app.low" "app.high.views".

(** [app.low] imports [app.mid], which imports [app.high]. *)
Definition low_mid_high_imports : ImportGraph :=
  mkImportGraph app_modules [("app.low", "app.mid"); ("app.mid", "app.high")].

Definition low_mid_high : DependencyGraph :=
  mkGraph
    (λ module, filter (λ d, is_descendant module d = true) app_modules)
    (λ upstream downstream ignore_paths,
       if bool_decide (upstream = "app.low" ∧ downstream = "app.high"
                       ∧ (mkImportPath "app.low" "app.mid" ∉ ignore_paths)
                       ∧ (mkImportPath "app.mid" "app.high" ∉ ignore_paths))
       then Some ["app.low"; "app.mid"; "app.high"]
       else if bool_decide (upstream = "app.mid" ∧ downstream = "app.high"
                            ∧ mkImportPath "app.mid" "app.high" ∉ ignore_paths)
       then Some ["app.mid"; "app.high"]
       else if bool_decide (upstream = "app.low" ∧ downstream = "app.mid"
                            ∧ mkImportPath "app.low" "app.mid" ∉ ignore_paths)
       then Some ["app.low"; "app.mid"]
       else None).

(** ** Whitelist entries *)

(** [sep] occurs somewhere in [s]. *)
Definition occurs_in (sep s : string) : Prop :=
  ∃ pre post, s = pre +:+ sep +:+ post.

(** [s] has no space character, as a module name. *)
Fixpoint space_free (s : string) : bool :=
  match s with
  | EmptyString => true
  | String a s' => negb (Ascii.eqb a " ") && space_free s'
  end.

(** The entry written for a whitelisted import, and the edge it stands
    for. *)
Definition whitelist_entry (edge : string * string) : string :=
  edge.1 +:+ " <- " +:+ edge.2.

Definition whitelist_edge (edge : string * string) : ImportPath :=
  mkImportPath edge.1 edge.2.

(** Two configurations of the small project: one whitelists the import
    of [app.high] by [app.low]; in the other an entry lacks its spaces. *)
Definition app_config : gmap string (list string) :=
  {[ "packages" := ["app"];
     "layers" := ["low"; "mid"; "high"];
     "whitelisted_paths" := ["app.low <- app.high"; "app.low <- app.mid"] ]}.

Definition app_config_malformed : gmap string (list string) :=
  {[ "packages" := ["app"];
     "layers" := ["low"; "mid"; "high"];
     "whitelisted_paths" := ["app.low <- app.high"; "app.low<-app.mid"] ]}.

(** ** The rest of [contract.py] *)

(** [Layer.__str__] and [Layer.__repr__]; [self.__class__.__name__] is
    the name of the class. *)
Definition Layer_str (self : Layer) : string := name self.

Definition Layer_repr (self : Layer) : string :=
  "<" +:+ "Layer" +:+ ": " +:+ Layer_str self +:+ ">".

(** [Contract.__str__] and [Contract.__repr__]. *)
Definition Contract_str (self : Contract) : string := contract_name self.

Definition Contract_repr (self : Contract) : string :=
  "<" +:+ "Contract" +:+ ": " +:+ Contract_str self +:+ ">".

(** What [get_contracts] calls outside this module: [os.path.join],
    [open] (here [None] when it raises) and [yaml.load] (here [None] when
    it raises anything).  The mapping read from the file keeps the order of
    its keys, so it is a list of pairs; a file that holds no mapping from
    names to contract data is not described. *)
Record World : Type := mkWorld {
  os_path_join : string → string → string;
  open_file : string → option string;
  yaml_load : string → option (list (string * gmap string (list string)))
}.

(** How [get_contracts] can fail: [open] raised, [yaml.load] raised and
    [ContractParseError] is raised in its place, or [contract_from_yaml]
    raised. *)
Inductive load_exn : Type :=
  | OSError
  | ContractParseError
  | ContractError (e : exn).

Inductive loaded (A : Type) : Type :=
  | Loaded (a : A)
  | LoadFailed (e : load_exn).
Arguments Loaded {A} a.
Arguments LoadFailed {A} e.

(** [get_contracts]: the loop over the items is outside the [try], so what
    [contract_from_yaml] raises is not caught. *)
Definition get_contracts (w : World) (path : string) : loaded (list Contract) :=
  let contracts := [] in
  let file_path := os_path_join w path "layers.yml" in
  match open_file w file_path with
  | None => LoadFailed OSError
  | Some file =>
      match yaml_load w file with
      | None => LoadFailed ContractParseError
      | Some data_from_yaml =>
          match
            for_each
              (λ contracts item,
                 contract ←! contract_from_yaml item.1 item.2;
                 Returned (contracts ++ [contract]))
              data_from_yaml contracts
          with
          | Returned contracts => Loaded contracts
          | Raised e => LoadFailed (ContractError e)
          end
      end
  end.

(** ** More notions used to state properties *)

(** [sep.join(pieces)] *)
Fixpoint str_join (sep : string) (pieces : list string) : string :=
  match pieces with
  | [] => ""
  | x :: rest =>
      match rest with
      | [] => x
      | _ :: _ => x +:+ sep +:+ str_join sep rest
      end
  end.

(** No two recorded paths, at different places of the list, have sets of
    names of which one is inside the other; in particular no path is
    recorded twice. *)
Definition antichain (ds : list Path) : Prop :=
  NoDup ds
  ∧ ∀ p q : Path, p ∈ ds → q ∈ ds → set_of p ⊆ set_of q → p = q.

(** [p] has a smallest set of names among [paths]. *)
Definition minimal_in (paths : list Path) (p : Path) : Prop :=
  p ∈ paths
  ∧ ∀ p' : Path, p' ∈ paths → set_of p' ⊆ set_of p → set_of p' = set_of p.

(** A project with a single layer, a world with one file, and a graph
    without imports. *)
Definition flat_contract : Contract :=
  Contract_init "flat" ["app"; "lib"] [low] None false.

Definition no_imports : DependencyGraph :=
  mkGraph
    (λ module, filter (λ d, is_descendant module d = true) app_modules)
    (λ _ _ _, None).

Definition app_world (config : gmap string (list string)) : World :=
  mkWorld
    (λ a b, a +:+ "/" +:+ b)
    (λ file_path,
       if String.eqb file_path "proj/layers.yml" then Some "text" else None)
    (λ _, Some [("layering", config); ("flat", {[ "layers" := ["low"];
                                                   "packages" := ["app"] ]})]).

(** * Properties *)

(** ** Examples *)

Example updated_example :
  updated_illegal_dependencies [["a"; "b"; "c"]; ["x"; "y"]] ["b"; "a"]
  = [["x"; "y"]; ["b"; "a"]].
Proof. vm_compute. reflexivity. Qed.

Example split_example :
  str_split "a.b <- c.d" " <- " = ["a.b"; "c.d"]
  ∧ str_split "x <- <- y" " <- " = ["x"; "<- y"]
  ∧ str_split "a.b <-c.d" " <- " = ["a.b <-c.d"]
  ∧ str_split "a <- " " <- " = ["a"; ""].
Proof. repeat split; reflexivity. Qed.

(** ** The result monad and loops *)

Lemma for_each_app {S X : Type} (body : S → X → result S) (xs ys : list X)
    (st : S) :
  for_each body (xs ++ ys) st
  = (st' ←! for_each body xs st; for_each body ys st').
Proof.
  revert st. induction xs as [|x xs IH]; intros st; simpl; [done|].
  destruct (body st x); simpl; [apply IH | done].
Qed.

(** [[i for i in l if i not in rem]] when [rem] holds the elements of [l]
    that satisfy [P]. *)
Lemma filter_not_elem_of {A : Type} `{EqDecision A} (P : A → Prop)
    `{!∀ x, Decision (P x)} (rem l : list A) :
  (∀ i, i ∈ l → (i ∈ rem ↔ P i)) →
  filter (λ i, i ∉ rem) l = filter (λ i, ¬ P i) l.
Proof.
  induction l as [|x l IH]; intros Hrem; [done|].
  assert (Hl : ∀ i, i ∈ l → (i ∈ rem ↔ P i))
    by (intros i Hi; apply Hrem; by right).
  destruct (decide (P x)) as [HP|HP].
  - rewrite !filter_cons_False; [by apply IH | by intros ? | ].
    intros Hx. apply Hx, Hrem; [by left | done].
  - rewrite !filter_cons_True; [by rewrite IH | done | ].
    intros Hx. apply HP, Hrem; [by left | done].
Qed.

(** ** The aggregator *)

Section Aggregator.

Implicit Types (old ds : list Path) (path p q e : Path).

Lemma issubset_spec (a b : gset string) : issubset a b = true ↔ a ⊆ b.
Proof. unfold issubset. apply bool_decide_eq_true. Qed.

Lemma issubset_false (a b : gset string) : issubset a b = false ↔ ¬ a ⊆ b.
Proof. unfold issubset. apply bool_decide_eq_false. Qed.

(** The loop collects, in order, the recorded paths that contain the
    new one. *)
Lemma compare_loop_remove path old rem add :
  (fold_left (compare_existing (set_of path)) old (rem, add)).1
  = rem ++ filter (λ e, set_of path ⊆ set_of e) old.
Proof.
  revert rem add. induction old as [|e old IH]; intros rem add; simpl.
  - by rewrite app_nil_r.
  - destruct (issubset (set_of path) (set_of e)) eqn:Hsub.
    + apply issubset_spec in Hsub. rewrite IH, filter_cons_True by done.
      by rewrite <- app_assoc.
    + apply issubset_false in Hsub. rewrite filter_cons_False by done.
      destruct (issubset (set_of e) (set_of path)); apply IH.
Qed.

(** [add_path] ends [false] only if the last word was had by a recorded
    path that is strictly inside the new one. *)
Lemma compare_loop_add_false path old rem add :
  (fold_left (compare_existing (set_of path)) old (rem, add)).2 = false →
  add = false ∨ ∃ e, e ∈ old ∧ set_of e ⊂ set_of path.
Proof.
  revert rem add. induction old as [|e old IH]; intros rem add; simpl.
  - auto.
  - destruct (issubset (set_of path) (set_of e)) eqn:Hsub.
    + intros H. apply IH in H as [?|(e' & ? & ?)]; [done|].
      right. exists e'. split; [by right | done].
    + apply issubset_false in Hsub.
      destruct (issubset (set_of e) (set_of path)) eqn:Hsub'.
      * apply issubset_spec in Hsub'. intros _. right. exists e.
        split; [by left | done].
      * intros H. apply IH in H as [?|(e' & ? & ?)]; [by left|].
        right. exists e'. split; [by right | done].
Qed.

(** Without a recorded path containing the new one, only the second
    branch can fire. *)
Lemma compare_loop_add_no_superset path old rem add :
  (∀ e, e ∈ old → ¬ set_of path ⊆ set_of e) →
  (fold_left (compare_existing (set_of path)) old (rem, add)).2
  = add && forallb (λ e, negb (issubset (set_of e) (set_of path))) old.
Proof.
  revert rem add. induction old as [|e old IH]; intros rem add Hno; simpl.
  - by rewrite andb_true_r.
  - rewrite (proj2 (issubset_false _ _)) by (apply Hno; by left).
    assert (Hno' : ∀ e', e' ∈ old → ¬ set_of path ⊆ set_of e')
      by (intros e' He'; apply Hno; by right).
    destruct (issubset (set_of e) (set_of path)); simpl; rewrite IH by done.
    + by rewrite andb_false_r.
    + done.
Qed.

Lemma compare_loop_add_skip path old rem add :
  (∀ e, e ∈ old → ¬ set_of path ⊆ set_of e) →
  (∃ e, e ∈ old ∧ set_of e ⊂ set_of path) →
  (fold_left (compare_existing (set_of path)) old (rem, add)).2 = false.
Proof.
  intros Hno (e & He & Hsub & _). rewrite compare_loop_add_no_superset by done.
  apply andb_false_iff. right. apply not_true_is_false. intros Hall.
  rewrite forallb_forall in Hall. apply list_elem_of_In, Hall in He.
  apply negb_true_iff, issubset_false in He. done.
Qed.

(** Without a recorded path strictly inside the new one, the new one is
    added. *)
Lemma compare_loop_add_true path old rem :
  (∀ e, e ∈ old → ¬ set_of e ⊂ set_of path) →
  (fold_left (compare_existing (set_of path)) old (rem, true)).2 = true.
Proof.
  intros Hno.
  destruct (fold_left _ old (rem, true)).2 eqn:H; [done|].
  apply compare_loop_add_false in H as [?|(e & He & Hs)]; [done|].
  by destruct (Hno e He).
Qed.

(** What [_update_illegal_dependencies] leaves in the list: the recorded
    paths that do not contain the new one, then the new one if
    [add_path] ended [True]. *)
Lemma updated_unfold old path :
  updated_illegal_dependencies old path
  = filter (λ e, ¬ set_of path ⊆ set_of e) old
    ++ (if (fold_left (compare_existing (set_of path)) old ([], true)).2
        then [path] else []).
Proof.
  unfold updated_illegal_dependencies.
  pose proof (compare_loop_remove path old [] true) as Hrem.
  destruct (fold_left _ old ([], true)) as [rem add]. simpl in *. subst rem.
  rewrite (filter_not_elem_of (λ e, set_of path ⊆ set_of e)).
  - destruct add; [done | by rewrite app_nil_r].
  - intros i Hi. rewrite list_elem_of_filter.
    split; [by intros [? _] | by intros ?].
Qed.

Lemma updated_elem_of old path q :
  q ∈ updated_illegal_dependencies old path → q ∈ old ∨ q = path.
Proof.
  rewrite updated_unfold, elem_of_app, list_elem_of_filter.
  intros [[_ ?]|Hq]; [by left|].
  destruct (fold_left _ old ([], true)).2.
  - apply list_elem_of_singleton in Hq. by right.
  - by apply elem_of_nil in Hq.
Qed.

(** A recorded path stays unless it contains the new one. *)
Lemma updated_keeps old path e :
  e ∈ old → ¬ set_of path ⊆ set_of e →
  e ∈ updated_illegal_dependencies old path.
Proof.
  intros He Hsub. rewrite updated_unfold, elem_of_app, list_elem_of_filter.
  by left.
Qed.

(** After a path has been submitted, the list holds a path inside it. *)
Lemma updated_dominates old path :
  ∃ q, q ∈ updated_illegal_dependencies old path ∧ set_of q ⊆ set_of path.
Proof.
  destruct (fold_left (compare_existing (set_of path)) old ([], true)).2 eqn:Hadd.
  - exists path. split; [|done].
    rewrite updated_unfold, Hadd, elem_of_app, list_elem_of_singleton. by right.
  - apply compare_loop_add_false in Hadd as [?|(e & He & Hsub & Hnsub)]; [done|].
    exists e. split; [by apply updated_keeps | done].
Qed.

(** Being dominated survives later submissions. *)
Lemma updated_dominated_mono old path (X : gset string) :
  (∃ q, q ∈ old ∧ set_of q ⊆ X) →
  ∃ q, q ∈ updated_illegal_dependencies old path ∧ set_of q ⊆ X.
Proof.
  intros (q & Hq & HqX).
  destruct (decide (set_of path ⊆ set_of q)) as [Hsub|Hsub].
  - destruct (updated_dominates old path) as (r & Hr & Hrp).
    exists r. split; [done|]. by etrans; [|exact HqX]; etrans.
  - exists q. split; [by apply updated_keeps | done].
Qed.

Lemma updated_not_nil old path : updated_illegal_dependencies old path ≠ [].
Proof.
  destruct (updated_dominates old path) as (q & Hq & _).
  intros Hnil. rewrite Hnil in Hq. by apply elem_of_nil in Hq.
Qed.

(** The invariant of the list is kept by every update. *)
Lemma updated_no_strict_subset old path :
  no_strict_subset old → no_strict_subset (updated_illegal_dependencies old path).
Proof.
  intros Hinv p q Hp Hq Hpq.
  assert (Hin : ∀ r, r ∈ updated_illegal_dependencies old path →
                (r ∈ old ∧ ¬ set_of path ⊆ set_of r)
                ∨ (r = path ∧ ∀ e, e ∈ old → ¬ set_of e ⊂ set_of path
                                              ∨ set_of path ⊆ set_of e)).
  { intros r. rewrite updated_unfold, elem_of_app, list_elem_of_filter.
    intros [[? ?]|Hr]; [by left|].
    destruct (fold_left _ old ([], true)).2 eqn:Hadd;
      [|by apply elem_of_nil in Hr].
    apply list_elem_of_singleton in Hr. right. split; [done|]. intros e He.
    destruct (decide (set_of path ⊆ set_of e)); [by right|]. left.
    intros Hstrict.
    destruct (decide (Forall (λ e', ¬ set_of path ⊆ set_of e') old)) as [Hno|Hsome].
    - rewrite Forall_forall in Hno.
      rewrite compare_loop_add_skip in Hadd; [done..|by exists e].
    - apply Hsome, Forall_forall. intros e' He' Hsub. apply (Hinv e e' He He').
      destruct Hstrict as [H1 H2]. split; [by etrans|].
      intros H3. apply H2. by etrans. }
  destruct (Hin p Hp) as [[Hp1 Hp2]|[Hp1 Hp2]],
    (Hin q Hq) as [[Hq1 Hq2]|[Hq1 Hq2]]; subst.
  - by apply (Hinv p q).
  - destruct (Hq2 p Hp1) as [H|H]; done.
  - apply Hq2. by destruct Hpq.
  - by destruct Hpq.
Qed.

Lemma recorded_no_strict_subset ds : recorded ds → no_strict_subset ds.
Proof.
  induction 1 as [|ds path _ IH].
  - intros p q Hp. by apply elem_of_nil in Hp.
  - by apply updated_no_strict_subset.
Qed.

Lemma recorded_fold (paths : list Path) ds :
  recorded ds → recorded (fold_left updated_illegal_dependencies paths ds).
Proof.
  revert ds. induction paths as [|p paths IH]; intros ds Hds; simpl; [done|].
  apply IH. by constructor.
Qed.

(** In a state that keeps the invariant: a recorded path strictly inside
    the new one leaves the list as it is. *)
Lemma updated_skip old path :
  no_strict_subset old →
  (∃ e, e ∈ old ∧ set_of e ⊂ set_of path) →
  updated_illegal_dependencies old path = old
  ∧ filter (λ e, ¬ set_of path ⊆ set_of e) old = old.
Proof.
  intros Hinv (e & He & Hstrict).
  assert (Hno : ∀ e', e' ∈ old → ¬ set_of path ⊆ set_of e').
  { intros e' He' Hsub. apply (Hinv e e' He He').
    destruct Hstrict as [H1 H2]. split; [by etrans|].
    intros H3. apply H2. by etrans. }
  assert (Hfilter : filter (λ e, ¬ set_of path ⊆ set_of e) old = old).
  { clear -Hno. induction old as [|x old IH]; [done|].
    rewrite filter_cons_True by (apply Hno; by left).
    f_equal. apply IH. intros e' ?. apply Hno. by right. }
  split; [|done].
  rewrite updated_unfold, Hfilter, compare_loop_add_skip; [|done|by exists e].
  by rewrite app_nil_r.
Qed.

(** Otherwise the paths that contain the new one go and the new one is
    appended; this holds in every state. *)
Lemma updated_add old path :
  (∀ e, e ∈ old → ¬ set_of e ⊂ set_of path) →
  updated_illegal_dependencies old path
  = filter (λ e, ¬ set_of path ⊆ set_of e) old ++ [path].
Proof.
  intros Hno. by rewrite updated_unfold, compare_loop_add_true.
Qed.

End Aggregator.

(** ** The violation detector *)

Section Detector.

Implicit Types (c self : Contract) (g : DependencyGraph) (layer : Layer).

Lemma Layer_eqb_refl layer : Layer_eqb layer layer = true.
Proof. apply Nat.eqb_refl. Qed.

Lemma Layer_eqb_eq (a b : Layer) : Layer_eqb a b = true ↔ ident a = ident b.
Proof. apply Nat.eqb_eq. Qed.

(** [index] and [remove] find every layer that is in the list. *)
Lemma list_index_total layer (l : list Layer) :
  layer ∈ l → ∃ i, list_index layer l = Returned i.
Proof.
  induction l as [|y l IH]; intros Hin; [by apply elem_of_nil in Hin|].
  simpl. destruct (Layer_eqb y layer) eqn:Heq; [by eexists|].
  apply elem_of_cons in Hin as [->|Hin]; [by rewrite Layer_eqb_refl in Heq|].
  destruct (IH Hin) as [i ->]. by eexists.
Qed.

Lemma list_remove_total layer (l : list Layer) :
  layer ∈ l → ∃ r, list_remove layer l = Returned r.
Proof.
  induction l as [|y l IH]; intros Hin; [by apply elem_of_nil in Hin|].
  simpl. destruct (Layer_eqb y layer) eqn:Heq; [by eexists|].
  apply elem_of_cons in Hin as [->|Hin]; [by rewrite Layer_eqb_refl in Heq|].
  destruct (IH Hin) as [r ->]. by eexists.
Qed.

(** When no object is listed twice, [index] is the position. *)
Lemma list_index_NoDup layer (l : list Layer) (j : nat) :
  NoDup (ident <$> l) → l !! j = Some layer → list_index layer l = Returned j.
Proof.
  revert j. induction l as [|y l IH]; intros j Hnd Hj; [done|].
  apply NoDup_cons in Hnd as [Hy Hnd]. destruct j as [|j]; simpl in *.
  - injection Hj as ->. by rewrite Layer_eqb_refl.
  - destruct (Layer_eqb y layer) eqn:Heq.
    + apply Layer_eqb_eq in Heq. exfalso. apply Hy. rewrite Heq.
      apply list_elem_of_fmap_2. by eapply list_elem_of_lookup_2.
    + by rewrite (IH j).
Qed.

(** ... and [remove] leaves exactly the other objects. *)
Lemma list_remove_NoDup layer (l : list Layer) :
  NoDup (ident <$> l) → layer ∈ l →
  list_remove layer l = Returned (filter (λ y, ident y ≠ ident layer) l).
Proof.
  induction l as [|y l IH]; intros Hnd Hin; [by apply elem_of_nil in Hin|].
  apply NoDup_cons in Hnd as [Hy Hnd]. simpl.
  destruct (Layer_eqb y layer) eqn:Heq.
  - apply Layer_eqb_eq in Heq. rewrite filter_cons_False by (by intros ?).
    f_equal. symmetry. clear -Hy Heq. induction l as [|z l IH]; [done|].
    rewrite filter_cons_True.
    + f_equal. apply IH. intros ?. apply Hy. by right.
    + intros Hz. apply Hy. rewrite Heq, <- Hz. by left.
  - assert (ident y ≠ ident layer) as Hne.
    { intros ?. by rewrite (proj2 (Layer_eqb_eq _ _)) in Heq. }
    apply elem_of_cons in Hin as [->|Hin]; [done|].
    rewrite IH, filter_cons_True by done. done.
Qed.

Lemma downstream_fold package (l : list Layer) (acc : list string) :
  fold_left (λ modules downstream_layer,
               modules ++ [layer_module_name package downstream_layer]) l acc
  = acc ++ (layer_module_name package <$> l).
Proof.
  revert acc. induction l as [|x l IH]; intros acc; simpl.
  - by rewrite app_nil_r.
  - by rewrite IH, <- app_assoc.
Qed.

Lemma downstream_modules_total c layer package g :
  layer ∈ layers c →
  ∃ ms, _get_modules_in_downstream_layers c layer package g = Returned ms.
Proof.
  intros Hin. unfold _get_modules_in_downstream_layers, _get_layers_downstream_of.
  destruct (list_index_total _ _ Hin) as [i ->]. by eexists.
Qed.

Lemma via_total c path layer package :
  layer ∈ layers c →
  ∃ b, _path_is_via_another_layer c path layer package = Returned b.
Proof.
  intros Hin. unfold _path_is_via_another_layer.
  destruct (list_remove_total _ _ Hin) as [r ->]. by eexists.
Qed.

(** The loops over a contract whose list is set, as submissions. *)
Lemma for_each_update c (paths : list Path) (ds : list Path) :
  for_each _update_illegal_dependencies paths (set_illegal_dependencies c ds)
  = Returned (set_illegal_dependencies c
                (fold_left updated_illegal_dependencies paths ds)).
Proof.
  revert ds. induction paths as [|p paths IH]; intros ds; [done|].
  simpl. apply IH.
Qed.

Lemma for_each_submit {X : Type} c (body : Contract → X → result Contract)
    (h : X → list Path) (xs : list X) :
  (∀ x ds, x ∈ xs →
     body (set_illegal_dependencies c ds) x
     = Returned (set_illegal_dependencies c
                   (fold_left updated_illegal_dependencies (h x) ds))) →
  ∀ ds, for_each body xs (set_illegal_dependencies c ds)
        = Returned (set_illegal_dependencies c
                      (fold_left updated_illegal_dependencies (xs ≫= h) ds)).
Proof.
  induction xs as [|x xs IH]; intros Hbody ds; [done|].
  simpl. rewrite Hbody by (by left). simpl.
  rewrite IH by (intros; apply Hbody; by right).
  by rewrite fold_left_app.
Qed.

Lemma check_pair_submit c g layer package U D ds :
  layer ∈ layers c →
  check_pair layer package g U (set_illegal_dependencies c ds) D
  = Returned (set_illegal_dependencies c
                (fold_left updated_illegal_dependencies
                   (finding c g layer package U D) ds)).
Proof.
  intros Hin. unfold check_pair, finding. simpl.
  destruct (find_path g D U (whitelisted_paths c)) as [[|m ms]|]; [done| |done].
  change (_path_is_via_another_layer (set_illegal_dependencies c ds))
    with (_path_is_via_another_layer c).
  destruct (via_total c (m :: ms) layer package Hin) as [b ->]. simpl.
  by destruct b.
Qed.

Lemma check_layer_submit c g layer package ds :
  layer ∈ layers c →
  _check_layer_does_not_import_downstream (set_illegal_dependencies c ds)
    layer package g
  = Returned (set_illegal_dependencies c
                (fold_left updated_illegal_dependencies
                   (findings c g package layer) ds)).
Proof.
  intros Hin. unfold _check_layer_does_not_import_downstream, findings.
  change (_get_modules_in_downstream_layers (set_illegal_dependencies c ds))
    with (_get_modules_in_downstream_layers c).
  change (_get_modules_in_layer (set_illegal_dependencies c ds))
    with (_get_modules_in_layer c).
  destruct (downstream_modules_total c layer package g Hin) as [ms ->].
  cbn [bind value_or].
  apply for_each_submit. intros U ds' _.
  apply for_each_submit. intros D ds'' _.
  by apply check_pair_submit.
Qed.

(** [check_dependencies] always returns: it resets the list and submits
    the paths of [submitted] one after the other. *)
Lemma check_dependencies_unfold c g :
  check_dependencies c g
  = Returned (set_illegal_dependencies c
                (fold_left updated_illegal_dependencies (submitted c g) [])).
Proof.
  unfold check_dependencies, submitted.
  change (packages (set_illegal_dependencies c [])) with (packages c).
  change (set_illegal_dependencies c (fold_left updated_illegal_dependencies
            (packages c ≫= λ package, reverse (layers c) ≫= findings c g package) []))
    with (set_illegal_dependencies (set_illegal_dependencies c [])
            (fold_left updated_illegal_dependencies
               (packages c ≫= λ package, reverse (layers c) ≫= findings c g package) [])).
  apply (for_each_submit (set_illegal_dependencies c [])
           _ (λ package, reverse (layers c) ≫= findings c g package)).
  intros package ds _.
  change (layers (set_illegal_dependencies (set_illegal_dependencies c []) ds))
    with (layers c).
  change (set_illegal_dependencies (set_illegal_dependencies c []) ds)
    with (set_illegal_dependencies c ds).
  rewrite (for_each_submit c _ (findings c g package)); [done|].
  intros layer ds' Hin. apply check_layer_submit.
  by apply elem_of_reverse.
Qed.

End Detector.

(** ** Claims about the aggregator *)

(** C3 (amended).  In every state the list reaches from the empty list by
    updates: every recorded path whose set of names contains (or equals)
    the new path's set is removed; if some recorded path's set is a
    strict subset of the new path's set the new path is not added (and
    the list stays as it is); otherwise the new path is appended.  Of two
    submitted paths where one's set is inside the other's, a single path
    with the smaller set is retained, whichever comes first. *)
Theorem C3_update_rule (old : list Path) (path : Path) :
  recorded old →
  (∀ e, e ∈ old → set_of path ⊆ set_of e →
        e ∉ filter (λ e', ¬ set_of path ⊆ set_of e') old)
  ∧ ((∃ e, e ∈ old ∧ set_of e ⊂ set_of path) →
       updated_illegal_dependencies old path
       = filter (λ e', ¬ set_of path ⊆ set_of e') old
       ∧ updated_illegal_dependencies old path = old)
  ∧ ((∀ e, e ∈ old → ¬ set_of e ⊂ set_of path) →
       updated_illegal_dependencies old path
       = filter (λ e', ¬ set_of path ⊆ set_of e') old ++ [path])
  ∧ (∀ p q : Path, set_of p ⊆ set_of q →
       updated_illegal_dependencies (updated_illegal_dependencies [] q) p = [p]
       ∧ updated_illegal_dependencies (updated_illegal_dependencies [] p) q
         = [if decide (set_of q ⊆ set_of p) then q else p]).
Proof.
  intros Hrec. apply recorded_no_strict_subset in Hrec.
  split; [|split; [|split]].
  - intros e _ Hsub Hin. apply list_elem_of_filter in Hin as [Hn _]. done.
  - intros Hex. destruct (updated_skip old path Hrec Hex) as [H1 H2].
    by rewrite H2.
  - apply updated_add.
  - intros p q Hpq.
    assert (Hone : ∀ r, updated_illegal_dependencies [] r = [r]) by done.
    rewrite !Hone. split.
    + rewrite updated_add.
      * by rewrite filter_cons_False, filter_nil by (by intros ?).
      * intros e He [_ Hn]. apply list_elem_of_singleton in He as ->. done.
    + destruct (decide (set_of q ⊆ set_of p)) as [Hqp|Hqp].
      * rewrite updated_add.
        -- by rewrite filter_cons_False, filter_nil by (by intros ?).
        -- intros e He [_ Hn]. apply list_elem_of_singleton in He as ->. done.
      * apply (updated_skip [p] q).
        -- intros a b Ha Hb. apply list_elem_of_singleton in Ha as ->.
           apply list_elem_of_singleton in Hb as ->. by intros [_ ?].
        -- exists p. split; [by left | done].
Qed.

(** C4.  Starting from the empty list, after every update, and so after
    [check_dependencies] (which always returns), the list holds no path
    whose set of names is a strict subset of another recorded path's. *)
Theorem C4_no_strict_subset :
  (∀ paths : list Path,
     no_strict_subset (fold_left updated_illegal_dependencies paths []))
  ∧ (∀ (c : Contract) (g : DependencyGraph),
       ∃ c' ds, check_dependencies c g = Returned c'
                ∧ illegal_dependencies c' = Some ds
                ∧ no_strict_subset ds).
Proof.
  assert (H : ∀ paths : list Path,
            no_strict_subset (fold_left updated_illegal_dependencies paths [])).
  { intros paths. apply recorded_no_strict_subset, recorded_fold. constructor. }
  split; [done|]. intros c g. rewrite check_dependencies_unfold.
  eexists _, _. split; [done|]. split; [done|]. apply H.
Qed.

(** C10.  When the new path's set of names equals that of a recorded
    path, the first branch decides: the recorded entry is removed and the
    new path is appended after the entries that stay, also when the two
    lists differ in order. *)
Theorem C10_equal_sets_replace (old : list Path) (path e : Path) :
  recorded old → e ∈ old → set_of e = set_of path →
  updated_illegal_dependencies old path
  = filter (λ e', ¬ set_of path ⊆ set_of e') old ++ [path]
  ∧ e ∉ filter (λ e', ¬ set_of path ⊆ set_of e') old.
Proof.
  intros Hrec He Heq. apply recorded_no_strict_subset in Hrec. split.
  - apply updated_add. intros e' He' Hstrict. apply (Hrec e' e He' He).
    by rewrite Heq.
  - intros Hin. apply list_elem_of_filter in Hin as [Hn _]. apply Hn.
    by rewrite Heq.
Qed.

(** C3 as stated fails.  At equal sets a recorded path's set is a subset
    of the new path's set and the new path is added all the same (first
    three lines, in a state the list reaches).  In a state the list never
    reaches, a recorded strict subset does not keep the new path out when
    a later entry contains it (last line). *)
Lemma C3_counterexample :
  recorded [["a"; "b"]]
  ∧ set_of ["a"; "b"] ⊆ set_of ["b"; "a"]
  ∧ updated_illegal_dependencies [["a"; "b"]] ["b"; "a"] = [["b"; "a"]]
  ∧ set_of ["a"] ⊂ set_of ["a"; "b"]
  ∧ updated_illegal_dependencies [["a"]; ["a"; "b"; "c"]] ["a"; "b"]
    = [["a"]; ["a"; "b"]].
Proof.
  split; [exact (recorded_update [] ["a"; "b"] recorded_nil)|].
  repeat split; compute_done.
Qed.

Lemma C3_update_rule_witness :
  recorded [["a"; "b"; "c"]; ["x"; "y"]]
  ∧ updated_illegal_dependencies [["a"; "b"; "c"]; ["x"; "y"]] ["b"; "a"]
    = filter (λ e', ¬ set_of ["b"; "a"] ⊆ set_of e') [["a"; "b"; "c"]; ["x"; "y"]]
      ++ [["b"; "a"]].
Proof.
  assert (Hrec : recorded [["a"; "b"; "c"]; ["x"; "y"]]).
  { exact (recorded_update _ ["x"; "y"]
             (recorded_update [] ["a"; "b"; "c"] recorded_nil)). }
  split; [exact Hrec|].
  apply (C3_update_rule _ ["b"; "a"] Hrec).
  intros e He.
  apply elem_of_cons in He as [->|He];
    [|apply list_elem_of_singleton in He as ->]; compute_done.
Defined.

Lemma C10_equal_sets_replace_witness :
  recorded [["x"; "y"]; ["a"; "b"]]
  ∧ updated_illegal_dependencies [["x"; "y"]; ["a"; "b"]] ["b"; "a"]
    = filter (λ e', ¬ set_of ["b"; "a"] ⊆ set_of e') [["x"; "y"]; ["a"; "b"]]
      ++ [["b"; "a"]]
  ∧ ["a"; "b"] ∉ filter (λ e', ¬ set_of ["b"; "a"] ⊆ set_of e')
                   [["x"; "y"]; ["a"; "b"]].
Proof.
  assert (Hrec : recorded [["x"; "y"]; ["a"; "b"]]).
  { exact (recorded_update _ ["a"; "b"]
             (recorded_update [] ["x"; "y"] recorded_nil)). }
  split; [exact Hrec|].
  apply (C10_equal_sets_replace _ ["b"; "a"] ["a"; "b"] Hrec).
  - right. left.
  - compute_done.
Defined.

Example equal_sets_example :
  updated_illegal_dependencies [["x"; "y"]; ["a"; "b"]] ["b"; "a"]
  = [["x"; "y"]; ["b"; "a"]].
Proof. by vm_compute. Qed.

(** ** Going through another layer *)

(** When no layer is listed twice, the answer of
    [_path_is_via_another_layer] is that of the specification's words. *)
Lemma via_another_layer_spec (c : Contract) (path : Path) (layer : Layer)
    (package : string) :
  NoDup (ident <$> layers c) → layer ∈ layers c →
  ∃ via, _path_is_via_another_layer c path layer package = Returned via
         ∧ (via = true ↔
              ∃ L, L ∈ layers c ∧ ident L ≠ ident layer
                   ∧ layer_module_name package L ∈ interior path).
Proof.
  intros Hnd Hin.
  unfold _path_is_via_another_layer. rewrite (list_remove_NoDup _ _ Hnd Hin).
  cbn [bind]. eexists. split; [done|].
  rewrite existsb_exists. split.
  - intros (x & Hx & Hdec). apply bool_decide_eq_true in Hdec.
    apply list_elem_of_In in Hx.
    change (x ∈ layer_module_name package
                  <$> filter (λ y, ident y ≠ ident layer) (layers c)) in Hdec.
    apply list_elem_of_fmap in Hdec as (L & -> & HL).
    apply list_elem_of_filter in HL as [? ?]. by exists L.
  - intros (L & HL & Hne & Hint). exists (layer_module_name package L).
    split; [by apply list_elem_of_In|]. apply bool_decide_eq_true.
    change (layer_module_name package L ∈ layer_module_name package
                  <$> filter (λ y, ident y ≠ ident layer) (layers c)).
    apply list_elem_of_fmap_2, list_elem_of_filter. done.
Qed.

(** ** Claims about the detector *)

(** C2.  For a non-empty path answered by the graph for a pair of modules
    while [layer] is checked (in a contract that lists no layer twice):
    the path is dropped, leaving the contract as it was, when one of its
    interior nodes [path[1:-1]] is the root module [package.L] of a
    declared layer [L] other than [layer]; otherwise it is handed to
    [_update_illegal_dependencies]. *)
Theorem C2_via_another_layer (c : Contract) (g : DependencyGraph)
    (layer : Layer) (package U D : string) (p : Path) :
  NoDup (ident <$> layers c) → layer ∈ layers c →
  find_path g D U (whitelisted_paths c) = Some p → p ≠ [] →
  ((∃ L, L ∈ layers c ∧ ident L ≠ ident layer
         ∧ layer_module_name package L ∈ interior p) →
     check_pair layer package g U c D = Returned c)
  ∧ (¬ (∃ L, L ∈ layers c ∧ ident L ≠ ident layer
             ∧ layer_module_name package L ∈ interior p) →
     check_pair layer package g U c D = _update_illegal_dependencies c p).
Proof.
  intros Hnd Hin Hpath Hp. unfold check_pair. rewrite Hpath.
  destruct p as [|m ms]; [done|].
  destruct (via_another_layer_spec c (m :: ms) layer package Hnd Hin)
    as (via & -> & Hvia).
  cbn [bind]. split.
  - intros Hex. apply Hvia in Hex. by rewrite Hex.
  - intros Hnex. destruct via; [|done]. destruct Hnex. by apply Hvia.
Qed.

(** C5.  In a contract that lists no layer twice, for the layer at
    position [j]: the modules of this layer are [package.layer_name]
    followed by the descendants the graph reports for it, and the
    downstream modules are the root module names [package.lower_name] of
    the layers at positions [j-1], [j-2], ..., [0], in that order, without
    their descendants. *)
Theorem C5_modules_queried (c : Contract) (g : DependencyGraph)
    (package : string) (layer : Layer) (j : nat) :
  NoDup (ident <$> layers c) → layers c !! j = Some layer →
  _get_modules_in_layer c layer package g
  = layer_module_name package layer
    :: get_descendants g (layer_module_name package layer)
  ∧ layer_module_name package layer = package +:+ "." +:+ name layer
  ∧ _get_layers_downstream_of c layer = Returned (reverse (take j (layers c)))
  ∧ (∃ ms, _get_modules_in_downstream_layers c layer package g = Returned ms
           ∧ ms = layer_module_name package <$> reverse (take j (layers c))
           ∧ length ms = j
           ∧ ∀ k, k < j →
               ms !! k = layer_module_name package <$> layers c !! (j - 1 - k)).
Proof.
  intros Hnd Hj. split; [done|]. split; [done|].
  assert (Hlen : j < length (layers c)) by (by eapply lookup_lt_Some).
  unfold _get_modules_in_downstream_layers, _get_layers_downstream_of.
  rewrite (list_index_NoDup _ _ _ Hnd Hj). cbn [bind]. split; [done|].
  eexists. split; [done|]. rewrite downstream_fold, app_nil_l.
  split; [done|].
  assert (Htake : length (take j (layers c)) = j)
    by (rewrite length_take; lia).
  split.
  - by rewrite length_fmap, length_reverse.
  - intros k Hk. rewrite list_lookup_fmap. f_equal.
    rewrite reverse_lookup by (rewrite Htake; lia).
    rewrite Htake, lookup_take_lt by lia. f_equal. lia.
Qed.

(** C6.  [check_dependencies] always returns, and running it again on the
    contract it returned gives that same contract: the second run starts
    from the empty list and ends with the same [illegal_dependencies].
    What the list held before a run has no effect on the result. *)
Theorem C6_rerun (c : Contract) (g : DependencyGraph) :
  ∃ c1, check_dependencies c g = Returned c1
        ∧ check_dependencies c1 g = Returned c1
        ∧ ∀ before : list Path,
            check_dependencies (set_illegal_dependencies c before) g
            = Returned c1.
Proof.
  eexists. split; [apply check_dependencies_unfold|].
  split; [|intros before]; by rewrite check_dependencies_unfold.
Qed.

(** C7.  On a contract just built by [__init__], [is_kept] raises
    [RuntimeError]; [check_dependencies] always returns, and on the
    contract it returns [is_kept] returns a boolean that is true exactly
    when [illegal_dependencies] is empty. *)
Theorem C7_is_kept :
  (∀ name packages layers whitelisted_paths recursive,
     is_kept (Contract_init name packages layers whitelisted_paths recursive)
     = Raised RuntimeError)
  ∧ (∀ (c : Contract) (g : DependencyGraph),
       ∃ c' ds b, check_dependencies c g = Returned c'
                  ∧ illegal_dependencies c' = Some ds
                  ∧ is_kept c' = Returned b
                  ∧ (b = true ↔ ds = [])).
Proof.
  split; [done|]. intros c g. rewrite check_dependencies_unfold.
  eexists _, _, _. split; [done|]. split; [done|]. split; [done|].
  rewrite Nat.eqb_eq. apply length_zero_iff_nil.
Qed.

(** C9.  Two contracts built with the same arguments but for [recursive]:
    [check_dependencies] returns on both, with the same
    [illegal_dependencies] and the same [is_kept]; the flag is only
    stored. *)
Theorem C9_recursive_flag (name : string) (packages : list string)
    (layers : list Layer) (whitelisted_paths : option (list ImportPath))
    (r1 r2 : bool) (g : DependencyGraph) :
  ∃ c1 c2,
    check_dependencies
      (Contract_init name packages layers whitelisted_paths r1) g = Returned c1
    ∧ check_dependencies
        (Contract_init name packages layers whitelisted_paths r2) g = Returned c2
    ∧ illegal_dependencies c1 = illegal_dependencies c2
    ∧ is_kept c1 = is_kept c2
    ∧ recursive c1 = r1 ∧ recursive c2 = r2.
Proof.
  eexists _, _. split; [apply check_dependencies_unfold|].
  split; [apply check_dependencies_unfold|]. done.
Qed.

Lemma C2_via_another_layer_witness :
  (NoDup (ident <$> layers app_contract) ∧ high ∈ layers app_contract)
  ∧ (find_path low_mid_high "app.low" "app.high" (whitelisted_paths app_contract)
     = Some ["app.low"; "app.mid"; "app.high"]
     ∧ check_pair high "app" low_mid_high "app.high" app_contract "app.low"
       = Returned app_contract)
  ∧ (find_path low_mid_high "app.mid" "app.high" (whitelisted_paths app_contract)
     = Some ["app.mid"; "app.high"]
     ∧ check_pair high "app" low_mid_high "app.high" app_contract "app.mid"
       = _update_illegal_dependencies app_contract ["app.mid"; "app.high"]).
Proof.
  assert (Hnd : NoDup (ident <$> layers app_contract)) by compute_done.
  assert (Hin : high ∈ layers app_contract) by (do 2 right; left).
  split; [done|]. split; (split; [done|]).
  - apply (C2_via_another_layer app_contract low_mid_high high "app"
             "app.high" "app.low" ["app.low"; "app.mid"; "app.high"]);
      [done..|].
    exists mid. split; [right; left|]. split; [done|]. compute_done.
  - apply (C2_via_another_layer app_contract low_mid_high high "app"
             "app.high" "app.mid" ["app.mid"; "app.high"]); [done..|].
    intros (L & _ & _ & HL). by apply elem_of_nil in HL.
Defined.

Lemma C5_modules_queried_witness :
  (NoDup (ident <$> layers app_contract) ∧ layers app_contract !! 2 = Some high)
  ∧ _get_modules_in_layer app_contract high "app" low_imports_views
    = ["app.high"; "app.high.views"]
  ∧ _get_modules_in_downstream_layers app_contract high "app" low_imports_views
    = Returned ["app.mid"; "app.low"].
Proof.
  assert (Hnd : NoDup (ident <$> layers app_contract)) by compute_done.
  assert (Hj : layers app_contract !! 2 = Some high) by done.
  split; [done|].
  destruct (C5_modules_queried app_contract low_imports_views "app" high 2
              Hnd Hj) as (Hthis & _ & _ & ms & Hdown & -> & _).
  split; [exact Hthis | exact Hdown].
Defined.

(** ** What is submitted and what is recorded *)

Lemma import_chain_ends (G : ImportGraph) (ign : list ImportPath)
    (u d : string) (p : Path) :
  import_chain G ign u d p → head p = Some u ∧ last p = Some d ∧ p ≠ [].
Proof.
  induction 1 as [a b ? ?|a b d p ? ? Hch (_ & IH & Hne)]; [done|].
  split; [done|]. split; [|done]. destruct p; [done|]. done.
Qed.

Lemma fold_updated_elem_of (paths ds : list Path) (q : Path) :
  q ∈ fold_left updated_illegal_dependencies paths ds → q ∈ ds ∨ q ∈ paths.
Proof.
  revert ds. induction paths as [|p paths IH]; intros ds; simpl; [by left|].
  intros Hq. apply IH in Hq as [Hq|Hq]; [|by right; right].
  apply updated_elem_of in Hq as [?| ->]; [by left | right; by left].
Qed.

Lemma fold_updated_dominated (paths ds : list Path) (X : gset string) :
  (∃ q, q ∈ ds ∧ set_of q ⊆ X) →
  ∃ q, q ∈ fold_left updated_illegal_dependencies paths ds ∧ set_of q ⊆ X.
Proof.
  revert ds. induction paths as [|p paths IH]; intros ds Hds; simpl; [done|].
  by apply IH, updated_dominated_mono.
Qed.

(** Every submitted path is represented in the final list by a path
    inside it. *)
Lemma fold_updated_dominates (paths ds : list Path) (p : Path) :
  p ∈ paths →
  ∃ q, q ∈ fold_left updated_illegal_dependencies paths ds
       ∧ set_of q ⊆ set_of p.
Proof.
  revert ds. induction paths as [|p' paths IH]; intros ds Hp;
    [by apply elem_of_nil in Hp|].
  simpl. apply elem_of_cons in Hp as [->|Hp]; [|by apply IH].
  apply fold_updated_dominated, updated_dominates.
Qed.

Lemma finding_elem_of (c : Contract) (g : DependencyGraph) (layer : Layer)
    (package U D : string) (q : Path) :
  q ∈ finding c g layer package U D
  ↔ find_path g D U (whitelisted_paths c) = Some q ∧ q ≠ []
    ∧ value_or false (_path_is_via_another_layer c q layer package) = false.
Proof.
  unfold finding.
  destruct (find_path g D U (whitelisted_paths c)) as [[|m ms]|].
  - rewrite elem_of_nil. split; [done|]. by intros [[= <-] [? _]].
  - destruct (value_or false _) eqn:Hvia.
    + rewrite elem_of_nil. split; [done|]. intros [[= <-] [_ ?]]. congruence.
    + rewrite list_elem_of_singleton. split.
      * by intros ->.
      * by intros [[= <-] _].
  - rewrite elem_of_nil. split; [done|]. by intros [? _].
Qed.

Lemma submitted_elem_of (c : Contract) (g : DependencyGraph) (q : Path) :
  q ∈ submitted c g
  ↔ ∃ package layer U D,
      package ∈ packages c ∧ layer ∈ layers c
      ∧ U ∈ _get_modules_in_layer c layer package g
      ∧ D ∈ value_or [] (_get_modules_in_downstream_layers c layer package g)
      ∧ q ∈ finding c g layer package U D.
Proof.
  unfold submitted, findings. rewrite list_elem_of_bind. split.
  - intros (package & Hq & Hpackage).
    apply list_elem_of_bind in Hq as (layer & Hq & Hlayer).
    apply list_elem_of_bind in Hq as (U & Hq & HU).
    apply list_elem_of_bind in Hq as (D & Hq & HD).
    rewrite elem_of_reverse in Hlayer. by exists package, layer, U, D.
  - intros (package & layer & U & D & ? & ? & ? & ? & ?).
    exists package. split; [|done].
    apply list_elem_of_bind. exists layer. split; [|by apply elem_of_reverse].
    apply list_elem_of_bind. exists U. split; [|done].
    apply list_elem_of_bind. by exists D.
Qed.

Lemma downstream_modules_NoDup (c : Contract) (g : DependencyGraph)
    (layer : Layer) (package : string) (j : nat) :
  NoDup (ident <$> layers c) → layers c !! j = Some layer →
  _get_modules_in_downstream_layers c layer package g
  = Returned (layer_module_name package <$> reverse (take j (layers c))).
Proof.
  intros Hnd Hj.
  unfold _get_modules_in_downstream_layers, _get_layers_downstream_of.
  rewrite (list_index_NoDup _ _ _ Hnd Hj). cbn [bind].
  by rewrite downstream_fold.
Qed.

(** ** The graph with a single import *)

Lemma single_import_chain (modules : list string) (a b : string)
    (ign : list ImportPath) (u d : string) (p : Path) :
  import_chain (single_import modules a b) ign u d p →
  u = a ∧ d = b ∧ mkImportPath a b ∉ ign.
Proof.
  induction 1 as [x y Hedge Hign|x y z p Hedge Hign _ (_ & -> & _)];
    apply list_elem_of_singleton in Hedge; by injection Hedge as -> ->.
Qed.

Lemma single_import_implements (modules : list string) (a b : string) :
  implements (single_import_graph modules a b) (single_import modules a b).
Proof.
  split.
  - intros module d. simpl. rewrite list_elem_of_filter. tauto.
  - intros u d ign p. simpl. case_bool_decide as Hcase; [|done].
    destruct Hcase as (-> & -> & Hign). intros [= <-].
    apply chain_direct; [by left | done].
  - intros u d ign. simpl. case_bool_decide as Hcase; [done|].
    intros _ p Hchain. by apply single_import_chain in Hchain.
Qed.

(** ** The graph with two imports in a row *)

Lemma low_mid_high_chain (ign : list ImportPath) (u d : string) (p : Path) :
  import_chain low_mid_high_imports ign u d p →
  (u = "app.low" ∧ d = "app.mid" ∧ p = ["app.low"; "app.mid"]
   ∧ mkImportPath "app.low" "app.mid" ∉ ign)
  ∨ (u = "app.mid" ∧ d = "app.high" ∧ p = ["app.mid"; "app.high"]
     ∧ mkImportPath "app.mid" "app.high" ∉ ign)
  ∨ (u = "app.low" ∧ d = "app.high" ∧ p = ["app.low"; "app.mid"; "app.high"]
     ∧ (mkImportPath "app.low" "app.mid" ∉ ign)
     ∧ (mkImportPath "app.mid" "app.high" ∉ ign)).
Proof.
  induction 1 as [x y Hedge Hign|x y z p Hedge Hign _ IH].
  - apply elem_of_cons in Hedge as [[= -> ->]|Hedge]; [by left|].
    apply list_elem_of_singleton in Hedge as [= -> ->]. right. by left.
  - apply elem_of_cons in Hedge as [[= -> ->]|Hedge].
    + destruct IH as [(? & _)|[(_ & -> & -> & ?)|(? & _)]]; [done| |done].
      right. by right.
    + apply list_elem_of_singleton in Hedge as [= -> ->].
      by destruct IH as [(? & _)|[(? & _)|(? & _)]].
Qed.

Lemma low_mid_high_implements : implements low_mid_high low_mid_high_imports.
Proof.
  split.
  - intros module d. simpl. rewrite list_elem_of_filter. tauto.
  - intros u d ign p. simpl.
    case_bool_decide as Hboth; [|case_bool_decide as Hsecond;
                                  [|case_bool_decide as Hfirst; [|done]]].
    + destruct Hboth as (-> & -> & H1 & H2). intros [= <-].
      eapply chain_step; [by left | done |].
      apply chain_direct; [right; by left | done].
    + destruct Hsecond as (-> & -> & H2). intros [= <-].
      apply chain_direct; [right; by left | done].
    + destruct Hfirst as (-> & -> & H1). intros [= <-].
      apply chain_direct; [by left | done].
  - intros u d ign. simpl. repeat case_bool_decide; [done..|].
    intros _ p Hchain.
    apply low_mid_high_chain in Hchain
      as [(-> & -> & _ & ?)|[(-> & -> & _ & ?)|(-> & -> & _ & ? & ?)]]; tauto.
Qed.

(** ** Claim C1 *)

(** C1 as stated fails.  First graph: [app.low.sub], a module of the
    lowest layer, imports [app.high], a module of the highest layer,
    nothing is whitelisted, and the contract is kept; only the root module
    of a lower layer is asked about.  Second graph: [app.low] imports
    [app.high] through [app.mid]; the chain goes through another layer, so
    the two paths recorded are those of the single imports and none runs
    from [app.low] to [app.high]. *)
Lemma C1_counterexample :
  implements sub_imports_high
    (single_import app_modules "app.low.sub" "app.high")
  ∧ NoDup (ident <$> layers app_contract)
  ∧ layers app_contract !! 0 = Some low
  ∧ layers app_contract !! 2 = Some high
  ∧ "app.low.sub" ∈ _get_modules_in_layer app_contract low "app" sub_imports_high
  ∧ "app.high" ∈ _get_modules_in_layer app_contract high "app" sub_imports_high
  ∧ whitelisted_paths app_contract = []
  ∧ import_chain (single_import app_modules "app.low.sub" "app.high")
      (whitelisted_paths app_contract) "app.low.sub" "app.high"
      ["app.low.sub"; "app.high"]
  ∧ check_dependencies app_contract sub_imports_high
    = Returned (set_illegal_dependencies app_contract [])
  ∧ is_kept (set_illegal_dependencies app_contract []) = Returned true
  ∧ implements low_mid_high low_mid_high_imports
  ∧ import_chain low_mid_high_imports (whitelisted_paths app_contract)
      "app.low" "app.high" ["app.low"; "app.mid"; "app.high"]
  ∧ check_dependencies app_contract low_mid_high
    = Returned (set_illegal_dependencies app_contract
                  [["app.mid"; "app.high"]; ["app.low"; "app.mid"]]).
Proof.
  split; [apply single_import_implements|].
  split; [compute_done|].
  do 2 (split; [done|]).
  do 2 (split; [compute_done|]).
  split; [done|].
  split; [apply chain_direct; [by left | by intros ?%elem_of_nil]|].
  split; [by vm_compute|]. split; [done|].
  split; [apply low_mid_high_implements|].
  split; [|by vm_compute].
  eapply chain_step; [by left | by intros ?%elem_of_nil |].
  apply chain_direct; [right; by left | by intros ?%elem_of_nil].
Qed.

(** C1 (amended).  In a contract that lists no layer twice, checked
    against a graph that keeps the contract of section 6: if for the root
    module [package.lo] of a layer and a module [U] of a strictly higher
    layer [hi] of the same package (the root module of [hi] or one of the
    descendants the graph reports) the graph answers an import chain [p]
    that avoids the whitelisted edges, and no interior node of [p] is the
    root module of a declared layer other than [hi], then
    [check_dependencies] returns, [is_kept] is false afterwards, and some
    recorded path lies inside [p].  Every recorded path is an import chain
    answered for such a pair: its first element is the root module of a
    layer, its last element a module of a strictly higher layer. *)
Theorem C1_detection (c : Contract) (g : DependencyGraph) (G : ImportGraph)
    (package : string) (i j : nat) (lo hi : Layer) (U : string) (p : Path) :
  implements g G → NoDup (ident <$> layers c) →
  package ∈ packages c →
  layers c !! i = Some lo → layers c !! j = Some hi → i < j →
  U ∈ _get_modules_in_layer c hi package g →
  find_path g (layer_module_name package lo) U (whitelisted_paths c) = Some p →
  (∀ L, L ∈ layers c → ident L ≠ ident hi →
        layer_module_name package L ∉ interior p) →
  ∃ c' ds,
    check_dependencies c g = Returned c'
    ∧ illegal_dependencies c' = Some ds
    ∧ is_kept c' = Returned false
    ∧ (∃ q, q ∈ ds ∧ set_of q ⊆ set_of p)
    ∧ (∀ q, q ∈ ds →
         ∃ D' U', queried c g D' U'
                  ∧ import_chain G (whitelisted_paths c) D' U' q
                  ∧ head q = Some D' ∧ last q = Some U').
Proof.
  intros Himpl Hnd Hpackage Hlo Hhi Hij HU Hpath Hnotvia.
  rewrite check_dependencies_unfold. eexists _, _.
  split; [done|]. split; [done|].
  assert (Hsub : p ∈ submitted c g).
  { apply submitted_elem_of.
    exists package, hi, U, (layer_module_name package lo).
    assert (Hhi_in : hi ∈ layers c) by (by eapply list_elem_of_lookup_2).
    split; [done|]. split; [done|]. split; [done|]. split.
    - rewrite (downstream_modules_NoDup c g hi package j Hnd Hhi). simpl.
      apply list_elem_of_fmap_2, elem_of_reverse, elem_of_take. by exists i.
    - apply finding_elem_of. split; [done|].
      apply (find_path_sound _ _ Himpl), import_chain_ends in Hpath
        as (_ & _ & Hne).
      split; [done|].
      destruct (via_another_layer_spec c p hi package Hnd Hhi_in)
        as (via & -> & Hvia).
      simpl. destruct via; [|done]. destruct Hvia as [Hvia _].
      destruct (Hvia eq_refl) as (L & HL & Hne' & Hint).
      by destruct (Hnotvia L HL Hne'). }
  destruct (fold_updated_dominates (submitted c g) [] p Hsub) as (q & Hq & Hqp).
  split; [|split; [by exists q|]].
  - unfold is_kept. simpl.
    destruct (fold_left updated_illegal_dependencies (submitted c g) []);
      [by apply elem_of_nil in Hq | done].
  - simpl. intros q' Hq'.
    apply fold_updated_elem_of in Hq' as [Hq'|Hq']; [by apply elem_of_nil in Hq'|].
    apply submitted_elem_of in Hq'
      as (package' & layer & U' & D' & Hpk & Hlayer & HU' & HD' & Hfind).
    apply list_elem_of_lookup in Hlayer as [j' Hj'].
    rewrite (downstream_modules_NoDup c g layer package' j' Hnd Hj') in HD'.
    simpl in HD'. apply list_elem_of_fmap in HD' as (lo' & -> & Hlo').
    apply elem_of_reverse, elem_of_take in Hlo' as (i' & Hi' & Hlt).
    apply finding_elem_of in Hfind as (Hfind & _ & _).
    apply (find_path_sound _ _ Himpl) in Hfind.
    exists (layer_module_name package' lo'), U'.
    split; [by exists package', i', j', lo', layer|].
    split; [done|]. by apply import_chain_ends in Hfind as (? & ? & _).
Qed.

Lemma C1_detection_witness :
  (implements low_imports_views
     (single_import app_modules "app.low" "app.high.views")
   ∧ NoDup (ident <$> layers app_contract)
   ∧ "app.high.views" ∈ _get_modules_in_layer app_contract high "app"
                          low_imports_views
   ∧ find_path low_imports_views (layer_module_name "app" low) "app.high.views"
       (whitelisted_paths app_contract)
     = Some ["app.low"; "app.high.views"])
  ∧ ∃ c' ds,
      check_dependencies app_contract low_imports_views = Returned c'
      ∧ illegal_dependencies c' = Some ds
      ∧ is_kept c' = Returned false
      ∧ (∃ q, q ∈ ds ∧ set_of q ⊆ set_of ["app.low"; "app.high.views"])
      ∧ (∀ q, q ∈ ds →
           ∃ D' U', queried app_contract low_imports_views D' U'
                    ∧ import_chain
                        (single_import app_modules "app.low" "app.high.views")
                        (whitelisted_paths app_contract) D' U' q
                    ∧ head q = Some D' ∧ last q = Some U').
Proof.
  assert (Himpl : implements low_imports_views
                    (single_import app_modules "app.low" "app.high.views"))
    by apply single_import_implements.
  assert (Hnd : NoDup (ident <$> layers app_contract)) by compute_done.
  assert (HU : "app.high.views" ∈ _get_modules_in_layer app_contract high "app"
                                   low_imports_views) by compute_done.
  split; [done|].
  apply (C1_detection app_contract low_imports_views _ "app" 0 2 low high
           "app.high.views" ["app.low"; "app.high.views"] Himpl Hnd);
    [by left | done | done | lia | done | done |].
  intros L _ _ HL. by apply elem_of_nil in HL.
Defined.

Example direct_import_example :
  check_dependencies app_contract low_imports_views
  = Returned (set_illegal_dependencies app_contract
                [["app.low"; "app.high.views"]]).
Proof. by vm_compute. Qed.

(** ** Loading whitelist entries *)

Section Loading.

Implicit Types (s sep piece : string).

Lemma string_app_cons (a : ascii) s t : String a s +:+ t = String a (s +:+ t).
Proof. reflexivity. Qed.

Lemma string_app_nil_r s : s +:+ "" = s.
Proof. induction s as [|a s IH]; [done|]. by rewrite string_app_cons, IH. Qed.

Lemma string_app_assoc s t u : (s +:+ t) +:+ u = s +:+ t +:+ u.
Proof.
  induction s as [|a s IH]; [done|]. by rewrite !string_app_cons, IH.
Qed.

Lemma prefix_app sep s : String.prefix sep s = true → ∃ post, s = sep +:+ post.
Proof.
  revert s. induction sep as [|a sep IH]; intros s; [by exists s|].
  destruct s as [|b s]; [done|]. simpl.
  destruct (ascii_dec a b) as [->|]; [|done].
  intros Hpre. destruct (IH s Hpre) as [post ->]. by exists post.
Qed.

(** Without an occurrence of the separator, [split] returns the string
    as its only piece. *)
Lemma split_from_no_occurrence sep piece s :
  ¬ occurs_in sep s → split_from sep 0 piece s = [piece +:+ s].
Proof.
  revert piece. induction s as [|a s IH]; intros piece Hno; cbn [split_from].
  - by rewrite string_app_nil_r.
  - destruct (String.prefix sep (String a s)) eqn:Hpre.
    + destruct Hno. apply prefix_app in Hpre as [post Hpost].
      by exists "", post.
    + rewrite IH.
      * by rewrite string_app_assoc.
      * intros (pre & post & ->). apply Hno. by exists (String a pre), post.
Qed.

Lemma split_from_space_free piece s :
  space_free s = true → split_from " <- " 0 piece s = [piece +:+ s].
Proof.
  revert piece. induction s as [|a s IH]; intros piece Hs.
  - simpl. by rewrite string_app_nil_r.
  - cbn [space_free] in Hs. apply andb_true_iff in Hs as [Ha Hs].
    apply negb_true_iff, Ascii.eqb_neq in Ha.
    cbn [split_from String.prefix]. destruct (ascii_dec " " a) as [<-|_]; [done|].
    by rewrite IH, string_app_assoc.
Qed.

(** A well-formed entry splits into its two module names. *)
Lemma split_from_entry piece (a b : string) :
  space_free a = true → space_free b = true →
  split_from " <- " 0 piece (a +:+ " <- " +:+ b) = [piece +:+ a; b].
Proof.
  revert piece. induction a as [|x a IH]; intros piece Ha Hb.
  - change ("" +:+ " <- " +:+ b)
      with (String " " (String "<" (String "-" (String " " b)))).
    assert (Hpre : String.prefix " <- "
                     (String " " (String "<" (String "-" (String " " b))))
                   = true) by (by destruct b).
    cbn [split_from]. rewrite Hpre. cbn [split_from String.length Nat.sub].
    rewrite split_from_space_free by done.
    by rewrite string_app_nil_r.
  - cbn [space_free] in Ha. apply andb_true_iff in Ha as [Hx Ha].
    apply negb_true_iff, Ascii.eqb_neq in Hx.
    rewrite string_app_cons.
    cbn [split_from String.prefix]. destruct (ascii_dec " " x) as [<-|_]; [done|].
    by rewrite IH, string_app_assoc.
Qed.

Lemma parse_missing_separator s :
  ¬ occurs_in " <- " s → parse_whitelist_entry s = Raised ValueError.
Proof.
  intros Hno. unfold parse_whitelist_entry, str_split.
  by rewrite split_from_no_occurrence.
Qed.

Lemma parse_raises_ValueError s (e : exn) :
  parse_whitelist_entry s = Raised e → e = ValueError.
Proof.
  unfold parse_whitelist_entry.
  destruct (str_split s " <- ") as [|? [|? [|? ?]]]; congruence.
Qed.

Lemma parse_entry (edge : string * string) :
  space_free edge.1 = true → space_free edge.2 = true →
  parse_whitelist_entry (whitelist_entry edge) = Returned (whitelist_edge edge).
Proof.
  intros H1 H2. unfold parse_whitelist_entry, str_split, whitelist_entry.
  by rewrite split_from_entry.
Qed.

(** The loop over the entries stops with [ValueError] at the first entry
    that does not parse. *)
Lemma whitelist_loop_raises (entries : list string) (acc : list ImportPath)
    (e : string) :
  e ∈ entries → parse_whitelist_entry e = Raised ValueError →
  for_each
    (λ whitelisted_paths whitelist_data,
       edge ←! parse_whitelist_entry whitelist_data;
       Returned (whitelisted_paths ++ [edge]))
    entries acc
  = Raised ValueError.
Proof.
  revert acc. induction entries as [|x entries IH]; intros acc Hin He;
    [by apply elem_of_nil in Hin|].
  simpl. destruct (parse_whitelist_entry x) as [edge|err] eqn:Hx.
  - simpl. apply IH; [|done].
    apply elem_of_cons in Hin as [->|Hin]; [congruence | done].
  - simpl. by rewrite (parse_raises_ValueError x err Hx).
Qed.

Lemma whitelist_loop_returns (edges : list (string * string))
    (acc : list ImportPath) :
  Forall (λ edge, space_free edge.1 = true ∧ space_free edge.2 = true) edges →
  for_each
    (λ whitelisted_paths whitelist_data,
       edge ←! parse_whitelist_entry whitelist_data;
       Returned (whitelisted_paths ++ [edge]))
    (whitelist_entry <$> edges) acc
  = Returned (acc ++ (whitelist_edge <$> edges)).
Proof.
  intros Hall. revert acc.
  induction Hall as [|edge edges [H1 H2] _ IH]; intros acc; simpl.
  - by rewrite app_nil_r.
  - rewrite parse_entry by done. simpl. rewrite IH. by rewrite <- app_assoc.
Qed.

Lemma space_free_app s t :
  space_free (s +:+ t) = space_free s && space_free t.
Proof.
  induction s as [|a s IH]; [done|].
  rewrite string_app_cons. cbn [space_free]. by rewrite IH, andb_assoc.
Qed.

(** A string without spaces has no separator. *)
Lemma space_free_no_separator s : space_free s = true → ¬ occurs_in " <- " s.
Proof.
  intros Hs (pre & post & ->). rewrite !space_free_app in Hs.
  apply andb_true_iff in Hs as [_ Hs]. by apply andb_true_iff in Hs as [Hs _].
Qed.

End Loading.

(** C8.  A configuration with a whitelist entry in which [" <- "] does not
    occur gives no contract: [contract_from_yaml] raises, and raises
    [ValueError] whenever the ['layers'] key is there to be read first; no
    entry is dropped.  When every entry is [importer <- imported] with two
    names free of spaces (and ['layers'] and ['packages'] are present), the
    contract is returned with one [ImportPath] per entry, in order. *)
Theorem C8_whitelist_entries (key : string) (data : gmap string (list string)) :
  (∀ entries e,
     data !! "whitelisted_paths" = Some entries → e ∈ entries →
     ¬ occurs_in " <- " e →
     (∃ err, contract_from_yaml key data = Raised err)
     ∧ (is_Some (data !! "layers") →
        contract_from_yaml key data = Raised ValueError))
  ∧ (∀ layers_data packages edges,
       data !! "layers" = Some layers_data →
       data !! "packages" = Some packages →
       data !! "whitelisted_paths" = Some (whitelist_entry <$> edges) →
       Forall (λ edge, space_free edge.1 = true ∧ space_free edge.2 = true)
         edges →
       contract_from_yaml key data
       = Returned
           (Contract_init key packages
              (imap (λ i layer_data, mkLayer i layer_data) layers_data)
              (Some (whitelist_edge <$> edges)) false)).
Proof.
  split.
  - intros entries e Hentries He Hno. unfold contract_from_yaml, getitem.
    rewrite Hentries. simpl.
    destruct (data !! "layers") as [layers_data|]; simpl.
    + rewrite (whitelist_loop_raises entries [] e He)
        by (by apply parse_missing_separator).
      split; [by eexists | done].
    + split; [by eexists | by intros [? ?]].
  - intros layers_data packages edges Hlayers Hpackages Hentries Hall.
    unfold contract_from_yaml, getitem.
    rewrite Hlayers, Hpackages, Hentries. simpl.
    by rewrite whitelist_loop_returns.
Qed.

(** A contract that [contract_from_yaml] returns lists no layer object
    twice: every entry of ['layers'] gets an object of its own. *)
Lemma imap_ident (layers_data : list string) (n : nat) :
  ident <$> imap (λ i layer_data, mkLayer (n + i) layer_data) layers_data
  = seq n (length layers_data).
Proof.
  revert n. induction layers_data as [|x l IH]; intros n; [done|].
  cbn [imap fmap list_fmap length seq ident]. f_equal; [lia|].
  rewrite <- (IH (S n)). f_equal. apply imap_ext.
  intros i y _. simpl. f_equal. lia.
Qed.

Lemma contract_from_yaml_NoDup (key : string)
    (data : gmap string (list string)) (c : Contract) :
  contract_from_yaml key data = Returned c → NoDup (ident <$> layers c).
Proof.
  unfold contract_from_yaml.
  destruct (getitem data "layers") as [layers_data|]; [|done].
  cbn [bind]. destruct (for_each _ _ _) as [edges|]; [|done].
  cbn [bind]. destruct (getitem data "packages") as [pk|]; [|done].
  cbn [bind]. intros [= <-]. cbn [layers Contract_init].
  change (NoDup (ident <$> imap (λ i layer_data, mkLayer (0 + i) layer_data)
                          layers_data)).
  rewrite imap_ident. apply NoDup_seq.
Qed.

Lemma C8_whitelist_entries_witness :
  contract_from_yaml "layering" app_config_malformed = Raised ValueError
  ∧ contract_from_yaml "layering" app_config
    = Returned
        (Contract_init "layering" ["app"] [low; mid; high]
           (Some [mkImportPath "app.low" "app.high";
                  mkImportPath "app.low" "app.mid"]) false).
Proof.
  split.
  - apply (proj1 (C8_whitelist_entries "layering" app_config_malformed)
             ["app.low <- app.high"; "app.low<-app.mid"] "app.low<-app.mid").
    + reflexivity.
    + right. left.
    + by apply space_free_no_separator.
    + by eexists.
  - apply (proj2 (C8_whitelist_entries "layering" app_config)
             ["low"; "mid"; "high"] ["app"]
             [("app.low", "app.high"); ("app.low", "app.mid")]);
      [reflexivity.. |].
    repeat constructor.
Defined.

(** * Further properties *)

(** ** More about the aggregator *)

Section AggregatorMore.

Implicit Types (old ds paths : list Path) (path p q e : Path).

Lemma filter_all {A : Type} (P : A → Prop) `{!∀ x, Decision (P x)}
    (l : list A) :
  (∀ x, x ∈ l → P x) → filter P l = l.
Proof.
  induction l as [|x l IH]; intros Hall; [done|].
  rewrite filter_cons_True by (apply Hall; by left).
  f_equal. apply IH. intros y Hy. apply Hall. by right.
Qed.

(** The loop over a list that ends with the new path itself ends with
    [add_path = True]. *)
Lemma compare_loop_snoc_self path old rem add :
  (fold_left (compare_existing (set_of path)) (old ++ [path]) (rem, add)).2
  = true.
Proof.
  rewrite fold_left_app. destruct (fold_left _ old (rem, add)) as [r a].
  simpl. by rewrite (proj2 (issubset_spec _ _)).
Qed.

Lemma updated_twice old path :
  updated_illegal_dependencies (updated_illegal_dependencies old path) path
  = updated_illegal_dependencies old path.
Proof.
  rewrite (updated_unfold old path).
  set (kept := filter (λ e, ¬ set_of path ⊆ set_of e) old).
  assert (Hkept : ∀ e, e ∈ kept → ¬ set_of path ⊆ set_of e).
  { intros e He. by apply list_elem_of_filter in He as [? _]. }
  destruct (fold_left _ old ([], true)).2 eqn:Hadd.
  - rewrite updated_unfold, compare_loop_snoc_self, filter_app.
    rewrite (filter_all _ kept Hkept).
    by rewrite filter_cons_False, filter_nil, app_nil_r by (by intros ?).
  - rewrite app_nil_r.
    apply compare_loop_add_false in Hadd as [?|(e & He & Hsub)]; [done|].
    rewrite updated_unfold, (filter_all _ kept Hkept).
    rewrite compare_loop_add_skip; [by rewrite app_nil_r | done |].
    exists e. split; [|done]. apply list_elem_of_filter. split; [|done].
    by destruct Hsub.
Qed.

Lemma updated_length old path :
  (length (updated_illegal_dependencies old path) ≤ S (length old))%nat.
Proof.
  rewrite updated_unfold, length_app.
  pose proof (length_filter (λ e, ¬ set_of path ⊆ set_of e) old).
  destruct (fold_left _ old ([], true)).2; simpl; lia.
Qed.

Lemma fold_updated_nil_iff paths :
  fold_left updated_illegal_dependencies paths [] = [] ↔ paths = [].
Proof.
  split; [|by intros ->].
  destruct paths as [|p paths]; [done|]. intros Hnil. exfalso.
  destruct (fold_updated_dominates (p :: paths) [] p) as (q & Hq & _);
    [by left|].
  rewrite Hnil in Hq. by apply elem_of_nil in Hq.
Qed.

(** The stronger invariant: an antichain without repetitions. *)
Lemma updated_antichain old path :
  antichain old → antichain (updated_illegal_dependencies old path).
Proof.
  intros [Hnd Hanti].
  assert (Hinv : no_strict_subset old).
  { intros p q Hp Hq [Hsub Hnsub]. apply Hnsub.
    by rewrite (Hanti p q Hp Hq Hsub). }
  rewrite updated_unfold.
  set (kept := filter (λ e, ¬ set_of path ⊆ set_of e) old).
  assert (Hkept : ∀ e, e ∈ kept → e ∈ old ∧ ¬ set_of path ⊆ set_of e).
  { intros e He. by apply list_elem_of_filter in He as [? ?]. }
  assert (Hkept_anti : antichain kept).
  { split; [by apply NoDup_filter|]. intros p q Hp Hq.
    apply Hanti; by apply Hkept. }
  destruct (fold_left _ old ([], true)).2 eqn:Hadd;
    [|by rewrite app_nil_r].
  assert (Hno : ∀ e, e ∈ kept → ¬ set_of e ⊆ set_of path).
  { intros e He Hsub. destruct (Hkept e He) as [Hold Hn].
    destruct (decide (Forall (λ e', ¬ set_of path ⊆ set_of e') old))
      as [Hall|Hsome].
    - rewrite Forall_forall in Hall.
      rewrite compare_loop_add_skip in Hadd; [done..|by exists e].
    - apply Hsome, Forall_forall. intros e' He' Hsub'.
      apply (Hinv e e' Hold He'). split; [by etrans|].
      intros H3. apply Hn. by etrans. }
  destruct Hkept_anti as [Hnd' Hanti']. split.
  - apply NoDup_app. split; [done|]. split; [|apply NoDup_singleton].
    intros e He Hpath. apply list_elem_of_singleton in Hpath as ->.
    by apply (Hno path He).
  - intros p q Hp Hq Hsub.
    apply elem_of_app in Hp as [Hp|Hp], Hq as [Hq|Hq];
      try apply list_elem_of_singleton in Hp as ->;
      try apply list_elem_of_singleton in Hq as ->.
    + by apply Hanti'.
    + by destruct (Hno p Hp).
    + by destruct (Hkept q Hq) as [_ Hn].
    + done.
Qed.

Lemma fold_updated_antichain paths ds :
  antichain ds → antichain (fold_left updated_illegal_dependencies paths ds).
Proof.
  revert ds. induction paths as [|p paths IH]; intros ds Hds; [done|].
  simpl. by apply IH, updated_antichain.
Qed.

Lemma antichain_nil : antichain [].
Proof.
  split; [apply NoDup_nil_2|]. intros p q Hp. by apply elem_of_nil in Hp.
Qed.

(** What is recorded has a smallest set of names among what was
    submitted. *)
Lemma fold_updated_minimal paths q :
  q ∈ fold_left updated_illegal_dependencies paths [] → minimal_in paths q.
Proof.
  intros Hq. split.
  - apply fold_updated_elem_of in Hq as [Hq|Hq]; [by apply elem_of_nil in Hq|].
    done.
  - intros p Hp Hsub.
    destruct (fold_updated_dominates paths [] p Hp) as (r & Hr & Hrp).
    destruct (fold_updated_antichain paths [] antichain_nil) as [_ Hanti].
    assert (r = q) as -> by (apply Hanti; [done..|by etrans]).
    apply (anti_symm (⊆)); done.
Qed.

(** ... and every smallest set of names submitted is recorded. *)
Lemma fold_updated_represents paths p :
  minimal_in paths p →
  ∃ q, q ∈ fold_left updated_illegal_dependencies paths []
       ∧ set_of q = set_of p.
Proof.
  intros [Hp Hmin].
  destruct (fold_updated_dominates paths [] p Hp) as (q & Hq & Hqp).
  exists q. split; [done|]. apply Hmin; [|done].
  by apply fold_updated_minimal in Hq as [? _].
Qed.

Lemma minimal_in_ext paths paths' p :
  (∀ p', p' ∈ paths ↔ p' ∈ paths') → minimal_in paths p → minimal_in paths' p.
Proof.
  intros Hsame [Hp Hmin]. split; [by apply Hsame|].
  intros p' Hp'. apply Hmin. by apply Hsame.
Qed.

End AggregatorMore.

(** X3.  Whatever is submitted, starting from the empty list, the list
    never holds a path twice, nor two entries of which one's set of names
    is inside (or equal to) the other's; so it is after
    [check_dependencies]. *)
Theorem X3_recorded_antichain :
  (∀ paths : list Path,
     antichain (fold_left updated_illegal_dependencies paths []))
  ∧ (∀ (c : Contract) (g : DependencyGraph),
       ∃ c' ds, check_dependencies c g = Returned c'
                ∧ illegal_dependencies c' = Some ds
                ∧ antichain ds).
Proof.
  split.
  - intros paths. apply fold_updated_antichain, antichain_nil.
  - intros c g. rewrite check_dependencies_unfold. eexists _, _.
    split; [done|]. split; [done|].
    apply fold_updated_antichain, antichain_nil.
Qed.

(** X4.  After any sequence of submissions from the empty list: every
    recorded path was submitted and no submitted path has a strictly
    smaller set of names; every submitted path has a recorded path inside
    it; and every smallest set of names among the submitted paths is the
    set of a recorded path. *)
Theorem X4_recorded_are_minimal (paths : list Path) :
  (∀ q, q ∈ fold_left updated_illegal_dependencies paths [] →
        minimal_in paths q)
  ∧ (∀ p, p ∈ paths →
          ∃ q, q ∈ fold_left updated_illegal_dependencies paths []
               ∧ set_of q ⊆ set_of p)
  ∧ (∀ p, minimal_in paths p →
          ∃ q, q ∈ fold_left updated_illegal_dependencies paths []
               ∧ set_of q = set_of p).
Proof.
  split; [apply fold_updated_minimal|]. split.
  - intros p Hp. by apply fold_updated_dominates.
  - apply fold_updated_represents.
Qed.

(** X5.  The sets of names that end up recorded do not depend on the
    order (or the repetitions) in which the paths were submitted. *)
Theorem X5_order_independent (paths paths' : list Path) :
  (∀ p, p ∈ paths ↔ p ∈ paths') →
  ∀ X : gset string,
    (∃ q, q ∈ fold_left updated_illegal_dependencies paths [] ∧ set_of q = X)
    ↔ (∃ q, q ∈ fold_left updated_illegal_dependencies paths' []
            ∧ set_of q = X).
Proof.
  intros Hsame X. split; intros (q & Hq & <-).
  - apply fold_updated_minimal, (minimal_in_ext _ paths') in Hq; [|done].
    by apply fold_updated_represents.
  - apply fold_updated_minimal, (minimal_in_ext _ paths) in Hq;
      [|intros p'; by rewrite Hsame].
    by apply fold_updated_represents.
Qed.

Lemma X5_order_independent_witness :
  (∀ p : Path, p ∈ [["a"; "b"; "c"]; ["a"; "b"]]
               ↔ p ∈ [["a"; "b"]; ["a"; "b"; "c"]; ["a"; "b"]])
  ∧ ∀ X : gset string,
      (∃ q, q ∈ fold_left updated_illegal_dependencies
                  [["a"; "b"; "c"]; ["a"; "b"]] []
            ∧ set_of q = X)
      ↔ (∃ q, q ∈ fold_left updated_illegal_dependencies
                    [["a"; "b"]; ["a"; "b"; "c"]; ["a"; "b"]] []
              ∧ set_of q = X).
Proof.
  assert (Hsame : ∀ p : Path, p ∈ [["a"; "b"; "c"]; ["a"; "b"]]
                              ↔ p ∈ [["a"; "b"]; ["a"; "b"; "c"]; ["a"; "b"]]).
  { intros p. rewrite !elem_of_cons. tauto. }
  split; [exact Hsame|].
  exact (X5_order_independent _ _ Hsame).
Defined.

(** X6.  Submitting a path a second time right after the first changes
    nothing, in any state of the list; on a contract, raising included. *)
Theorem X6_update_idempotent :
  (∀ (old : list Path) (path : Path),
     updated_illegal_dependencies (updated_illegal_dependencies old path) path
     = updated_illegal_dependencies old path)
  ∧ (∀ (c : Contract) (path : Path),
       (c1 ←! _update_illegal_dependencies c path;
        _update_illegal_dependencies c1 path)
       = _update_illegal_dependencies c path).
Proof.
  split; [apply updated_twice|]. intros c path.
  unfold _update_illegal_dependencies, get_illegal_dependencies.
  destruct (illegal_dependencies c) as [old|] eqn:Hold; [|done].
  simpl. by rewrite updated_twice.
Qed.

(** X7.  An update never leaves the list empty and makes it longer by at
    most one path; so the list is empty at the end exactly when nothing
    was submitted. *)
Theorem X7_never_emptied :
  (∀ (old : list Path) (path : Path),
     updated_illegal_dependencies old path ≠ []
     ∧ (length (updated_illegal_dependencies old path) ≤ S (length old))%nat)
  ∧ (∀ paths : list Path,
       fold_left updated_illegal_dependencies paths [] = [] ↔ paths = []).
Proof.
  split.
  - intros old path. split; [apply updated_not_nil | apply updated_length].
  - apply fold_updated_nil_iff.
Qed.

(** ** More about the detector *)

Section DetectorMore.

Implicit Types (c : Contract) (g : DependencyGraph) (layer : Layer).

(** [index] raises only [ValueError], and only when the object is not in
    the list; otherwise it returns its first position. *)
Lemma list_index_Raised layer (l : list Layer) (e : exn) :
  list_index layer l = Raised e →
  e = ValueError ∧ ∀ y, y ∈ l → ident y ≠ ident layer.
Proof.
  induction l as [|y l IH]; simpl.
  - intros [= <-]. split; [done|]. intros y Hy. by apply elem_of_nil in Hy.
  - destruct (Layer_eqb y layer) eqn:Heq; [done|].
    destruct (list_index layer l) as [i|e'] eqn:Hidx; [done|].
    simpl. intros [= <-]. destruct (IH eq_refl) as [-> Hno].
    split; [done|]. intros z Hz. apply elem_of_cons in Hz as [->|Hz].
    + intros Hid. apply Layer_eqb_eq in Hid. congruence.
    + by apply Hno.
Qed.

Lemma list_index_Returned layer (l : list Layer) (i : nat) :
  list_index layer l = Returned i →
  (∃ y, l !! i = Some y ∧ ident y = ident layer)
  ∧ ∀ k z, (k < i)%nat → l !! k = Some z → ident z ≠ ident layer.
Proof.
  revert i. induction l as [|y l IH]; intros i; simpl; [done|].
  destruct (Layer_eqb y layer) eqn:Heq.
  - intros [= <-]. split; [|intros k z Hk; lia].
    exists y. split; [done|]. by apply Layer_eqb_eq.
  - destruct (list_index layer l) as [i'|] eqn:Hidx; [|done].
    simpl. intros [= <-]. destruct (IH i' eq_refl) as [(z & Hz & Hid) Hfirst].
    split; [by exists z|]. intros [|k] z' Hk Hz'.
    + simpl in Hz'. injection Hz' as <-. intros Hid'.
      apply Layer_eqb_eq in Hid'. congruence.
    + apply (Hfirst k z'); [lia | done].
Qed.

Lemma list_remove_Raised layer (l : list Layer) (e : exn) :
  list_remove layer l = Raised e →
  e = ValueError ∧ ∀ y, y ∈ l → ident y ≠ ident layer.
Proof.
  induction l as [|y l IH]; simpl.
  - intros [= <-]. split; [done|]. intros y Hy. by apply elem_of_nil in Hy.
  - destruct (Layer_eqb y layer) eqn:Heq; [done|].
    destruct (list_remove layer l) as [r|e'] eqn:Hrem; [done|].
    simpl. intros [= <-]. destruct (IH eq_refl) as [-> Hno].
    split; [done|]. intros z Hz. apply elem_of_cons in Hz as [->|Hz].
    + intros Hid. apply Layer_eqb_eq in Hid. congruence.
    + by apply Hno.
Qed.

Lemma list_remove_Returned layer (l r : list Layer) :
  list_remove layer l = Returned r → ∃ y, y ∈ l ∧ ident y = ident layer.
Proof.
  revert r. induction l as [|y l IH]; intros r; simpl; [done|].
  destruct (Layer_eqb y layer) eqn:Heq.
  - intros _. exists y. split; [by left | by apply Layer_eqb_eq].
  - destruct (list_remove layer l) as [r'|] eqn:Hrem; [|done].
    intros _. destruct (IH r' eq_refl) as (z & Hz & Hid).
    exists z. split; [by right | done].
Qed.

(** The downstream modules are root modules of layers of the contract. *)
Lemma downstream_modules_elem c g layer package (D : string) :
  D ∈ value_or [] (_get_modules_in_downstream_layers c layer package g) →
  ∃ lo, lo ∈ layers c ∧ D = layer_module_name package lo.
Proof.
  unfold _get_modules_in_downstream_layers, _get_layers_downstream_of.
  destruct (list_index layer (layers c)) as [i|];
    [|by intros ?%elem_of_nil].
  cbn [bind value_or]. rewrite downstream_fold, app_nil_l.
  intros HD. apply list_elem_of_fmap in HD as (lo & -> & Hlo).
  apply elem_of_reverse, elem_of_take in Hlo as (k & Hk & _).
  exists lo. split; [by eapply list_elem_of_lookup_2 | done].
Qed.

Lemma interior_short (path : Path) : (length path ≤ 2)%nat → interior path = [].
Proof.
  destruct path as [|a [|b [|d path]]]; simpl; [done..|lia].
Qed.

End DetectorMore.

(** X1.  A contract with at most one layer, or without packages, is always
    kept: [check_dependencies] returns with an empty list whatever the
    graph holds. *)
Theorem X1_nothing_to_check (c : Contract) (g : DependencyGraph) :
  (length (layers c) ≤ 1)%nat ∨ packages c = [] →
  check_dependencies c g = Returned (set_illegal_dependencies c [])
  ∧ is_kept (set_illegal_dependencies c []) = Returned true.
Proof.
  intros Hfew. split; [|done]. rewrite check_dependencies_unfold.
  assert (Hnone : submitted c g = []).
  { apply elem_of_nil_inv. intros q Hq.
    apply submitted_elem_of in Hq
      as (package & layer & U & D & Hpk & Hlayer & _ & HD & _).
    destruct Hfew as [Hlen|Hpks]; [|rewrite Hpks in Hpk; by apply elem_of_nil in Hpk].
    unfold _get_modules_in_downstream_layers, _get_layers_downstream_of in HD.
    destruct (layers c) as [|l [|l' ls]]; [by apply elem_of_nil in Hlayer| |simpl in Hlen; lia].
    apply list_elem_of_singleton in Hlayer as ->.
    simpl in HD. rewrite Layer_eqb_refl in HD. simpl in HD.
    by apply elem_of_nil in HD. }
  by rewrite Hnone.
Qed.

Lemma X1_nothing_to_check_witness :
  ((length (layers flat_contract) ≤ 1)%nat ∨ packages flat_contract = [])
  ∧ check_dependencies flat_contract low_imports_views
    = Returned (set_illegal_dependencies flat_contract [])
  ∧ is_kept (set_illegal_dependencies flat_contract []) = Returned true.
Proof.
  assert (H : (length (layers flat_contract) ≤ 1)%nat
              ∨ packages flat_contract = []) by (left; simpl; lia).
  split; [exact H|].
  exact (X1_nothing_to_check flat_contract low_imports_views H).
Defined.

(** X2.  In a contract that lists no layer twice, [is_kept] is true after
    [check_dependencies] exactly when, for every package, every root
    module of a layer and every module of a strictly higher layer (its
    root module or a descendant reported by the graph), the graph answers
    no path, an empty one, or one with an interior node that is the root
    module of a declared layer other than the higher one. *)
Theorem X2_kept_iff (c : Contract) (g : DependencyGraph) :
  NoDup (ident <$> layers c) →
  ∃ c' b,
    check_dependencies c g = Returned c'
    ∧ is_kept c' = Returned b
    ∧ (b = true ↔
         ∀ package i j lo hi U p,
           package ∈ packages c →
           layers c !! i = Some lo → layers c !! j = Some hi → (i < j)%nat →
           U ∈ _get_modules_in_layer c hi package g →
           find_path g (layer_module_name package lo) U (whitelisted_paths c)
           = Some p →
           p = [] ∨ ∃ L, L ∈ layers c ∧ ident L ≠ ident hi
                        ∧ layer_module_name package L ∈ interior p).
Proof.
  intros Hnd. rewrite check_dependencies_unfold. eexists _, _.
  split; [done|]. split; [done|].
  rewrite Nat.eqb_eq, length_zero_iff_nil, fold_updated_nil_iff. split.
  - intros Hnone package i j lo hi U p Hpk Hlo Hhi Hij HU Hpath.
    destruct p as [|m ms]; [by left|]. right.
    assert (Hhi_in : hi ∈ layers c) by (by eapply list_elem_of_lookup_2).
    destruct (via_another_layer_spec c (m :: ms) hi package Hnd Hhi_in)
      as (via & Hvia_eq & Hvia).
    destruct via; [by apply Hvia|]. exfalso.
    assert (Hin : (m :: ms) ∈ submitted c g); [|rewrite Hnone in Hin; by apply elem_of_nil in Hin].
    apply submitted_elem_of.
    exists package, hi, U, (layer_module_name package lo).
    split; [done|]. split; [done|]. split; [done|]. split.
    + rewrite (downstream_modules_NoDup c g hi package j Hnd Hhi). simpl.
      apply list_elem_of_fmap_2, elem_of_reverse, elem_of_take. by exists i.
    + apply finding_elem_of. by rewrite Hvia_eq.
  - intros Hall. apply elem_of_nil_inv. intros q Hq.
    apply submitted_elem_of in Hq
      as (package & hi & U & D & Hpk & Hhi_in & HU & HD & Hfind).
    apply finding_elem_of in Hfind as (Hpath & Hne & Hvia_false).
    pose proof Hhi_in as Hj. apply list_elem_of_lookup in Hj as [j Hj].
    rewrite (downstream_modules_NoDup c g hi package j Hnd Hj) in HD.
    simpl in HD. apply list_elem_of_fmap in HD as (lo & -> & Hlo).
    apply elem_of_reverse, elem_of_take in Hlo as (i & Hi & Hij).
    destruct (Hall package i j lo hi U q Hpk Hi Hj Hij HU Hpath)
      as [->|Hex]; [done|].
    destruct (via_another_layer_spec c q hi package Hnd Hhi_in)
      as (via & Hvia_eq & Hvia).
    rewrite Hvia_eq in Hvia_false. simpl in Hvia_false. subst via.
    by apply Hvia in Hex.
Qed.

Lemma X2_kept_iff_witness :
  NoDup (ident <$> layers app_contract)
  ∧ ∃ c' b,
      check_dependencies app_contract low_mid_high = Returned c'
      ∧ is_kept c' = Returned b
      ∧ (b = true ↔
           ∀ package i j lo hi U p,
             package ∈ packages app_contract →
             layers app_contract !! i = Some lo →
             layers app_contract !! j = Some hi → (i < j)%nat →
             U ∈ _get_modules_in_layer app_contract hi package low_mid_high →
             find_path low_mid_high (layer_module_name package lo) U
               (whitelisted_paths app_contract)
             = Some p →
             p = [] ∨ ∃ L, L ∈ layers app_contract ∧ ident L ≠ ident hi
                          ∧ layer_module_name package L ∈ interior p).
Proof.
  assert (Hnd : NoDup (ident <$> layers app_contract)) by compute_done.
  split; [exact Hnd|].
  exact (X2_kept_iff app_contract low_mid_high Hnd).
Defined.

(** X8.  [_get_layers_downstream_of] raises, and then [ValueError], exactly
    when the layer object is not in [layers]; otherwise it returns the
    layers before the first place where the object stands, nearest
    first. *)
Theorem X8_downstream_of (c : Contract) (layer : Layer) :
  (_get_layers_downstream_of c layer = Raised ValueError
   ↔ ∀ y, y ∈ layers c → ident y ≠ ident layer)
  ∧ (∀ e, _get_layers_downstream_of c layer = Raised e → e = ValueError)
  ∧ (∀ ds, _get_layers_downstream_of c layer = Returned ds →
       ∃ i y, layers c !! i = Some y ∧ ident y = ident layer
              ∧ (∀ k z, (k < i)%nat → layers c !! k = Some z →
                        ident z ≠ ident layer)
              ∧ ds = reverse (take i (layers c))
              ∧ length ds = i).
Proof.
  unfold _get_layers_downstream_of.
  destruct (list_index layer (layers c)) as [i|e] eqn:Hidx; cbn [bind].
  - destruct (list_index_Returned _ _ _ Hidx) as [(y & Hy & Hid) Hfirst].
    split; [|split; [done|]].
    + split; [done|]. intros Hno. destruct (Hno y); [|done].
      by eapply list_elem_of_lookup_2.
    + intros ds [= <-]. exists i, y. repeat (split; [done|]).
      rewrite length_reverse, length_take.
      apply lookup_lt_Some in Hy. lia.
  - destruct (list_index_Raised _ _ _ Hidx) as [-> Hno].
    split; [done|]. split; [by intros e [= <-] | done].
Qed.

(** X9.  [_path_is_via_another_layer] raises [ValueError] exactly when the
    current layer object is not in [layers].  When it is, a path of at
    most two modules never goes through another layer, so a direct import
    answered by the graph is always handed to
    [_update_illegal_dependencies]. *)
Theorem X9_via_edge_cases (c : Contract) (layer : Layer) (package : string) :
  (∀ path, _path_is_via_another_layer c path layer package = Raised ValueError
           ↔ ∀ y, y ∈ layers c → ident y ≠ ident layer)
  ∧ ((∃ y, y ∈ layers c ∧ ident y = ident layer) →
       (∀ path, (length path ≤ 2)%nat →
                _path_is_via_another_layer c path layer package
                = Returned false)
       ∧ (∀ g U D a b,
            find_path g D U (whitelisted_paths c) = Some [a; b] →
            check_pair layer package g U c D
            = _update_illegal_dependencies c [a; b])).
Proof.
  split.
  - intros path. unfold _path_is_via_another_layer.
    destruct (list_remove layer (layers c)) as [r|e] eqn:Hrem; cbn [bind].
    + split; [done|]. intros Hno.
      destruct (list_remove_Returned _ _ _ Hrem) as (y & Hy & Hid).
      by destruct (Hno y Hy).
    + by destruct (list_remove_Raised _ _ _ Hrem) as [-> Hno].
  - intros (y & Hy & Hid).
    assert (Hshort : ∀ path, (length path ≤ 2)%nat →
              _path_is_via_another_layer c path layer package = Returned false).
    { intros path Hlen. unfold _path_is_via_another_layer.
      destruct (list_remove layer (layers c)) as [r|e] eqn:Hrem; cbn [bind].
      - by rewrite interior_short.
      - destruct (list_remove_Raised _ _ _ Hrem) as [_ Hno].
        by destruct (Hno y Hy). }
    split; [done|]. intros g U D a b Hpath.
    unfold check_pair. rewrite Hpath, Hshort by (simpl; lia). done.
Qed.

Lemma list_bind_ext_in {A B : Type} (f h : A → list B) (l : list A) :
  (∀ x, x ∈ l → f x = h x) → l ≫= f = l ≫= h.
Proof.
  induction l as [|x l IH]; intros Hext; [done|].
  cbn [mbind list_bind]. rewrite (Hext x) by (by left).
  f_equal. apply IH. intros y Hy. apply Hext. by right.
Qed.

(** X10.  The result depends on the graph only through the descendants of
    the layers' root modules and the paths answered, under the contract's
    whitelist, from a layer's root module: two graphs that agree there
    give the same result. *)
Theorem X10_only_queried_answers (c : Contract) (g1 g2 : DependencyGraph) :
  (∀ package layer, package ∈ packages c → layer ∈ layers c →
     get_descendants g1 (layer_module_name package layer)
     = get_descendants g2 (layer_module_name package layer)) →
  (∀ package lo U, package ∈ packages c → lo ∈ layers c →
     find_path g1 (layer_module_name package lo) U (whitelisted_paths c)
     = find_path g2 (layer_module_name package lo) U (whitelisted_paths c)) →
  check_dependencies c g1 = check_dependencies c g2.
Proof.
  intros Hdesc Hpath. rewrite !check_dependencies_unfold.
  do 3 f_equal. unfold submitted.
  apply list_bind_ext_in. intros package Hpk.
  apply list_bind_ext_in. intros layer Hlayer.
  rewrite elem_of_reverse in Hlayer.
  unfold findings, _get_modules_in_layer. rewrite (Hdesc package layer) by done.
  apply list_bind_ext_in. intros U _.
  change (_get_modules_in_downstream_layers c layer package g1)
    with (_get_modules_in_downstream_layers c layer package g2).
  apply list_bind_ext_in. intros D HD.
  apply downstream_modules_elem in HD as (lo & Hlo & ->).
  unfold finding. by rewrite (Hpath package lo U).
Qed.

Lemma X10_only_queried_answers_witness :
  check_dependencies app_contract sub_imports_high
  = check_dependencies app_contract no_imports.
Proof.
  apply X10_only_queried_answers.
  - done.
  - intros package lo U Hpk Hlo. apply list_elem_of_singleton in Hpk as ->.
    simpl. case_bool_decide as Hcase; [|done]. exfalso.
    destruct Hcase as (Hup & _).
    repeat (apply elem_of_cons in Hlo as [->|Hlo]); [..|by apply elem_of_nil in Hlo];
      by vm_compute in Hup.
Defined.

Lemma import_chain_steps (G : ImportGraph) (ign : list ImportPath)
    (u d : string) (p : Path) :
  import_chain G ign u d p →
  ∀ pre a b post, p = pre ++ a :: b :: post →
    (a, b) ∈ graph_imports G ∧ mkImportPath a b ∉ ign.
Proof.
  induction 1 as [x y Hedge Hign|x y z p Hedge Hign Hchain IH];
    intros pre a b post Heq.
  - destruct pre as [|? [|? [|? pre]]]; simplify_eq/=. done.
  - destruct pre as [|? pre]; simplify_eq/=.
    + apply import_chain_ends in Hchain as (Hhead & _). simplify_eq/=. done.
    + by eapply IH.
Qed.

Lemma import_chain_length (G : ImportGraph) (ign : list ImportPath)
    (u d : string) (p : Path) :
  import_chain G ign u d p → (2 ≤ length p)%nat.
Proof. induction 1; simpl; lia. Qed.

(** X11.  Checked against a graph that keeps the contract of section 6,
    every recorded path has at least two modules and each of its steps is
    a direct import of the graph that is not whitelisted. *)
Theorem X11_recorded_are_chains (c : Contract) (g : DependencyGraph)
    (G : ImportGraph) :
  implements g G →
  ∃ c' ds,
    check_dependencies c g = Returned c'
    ∧ illegal_dependencies c' = Some ds
    ∧ ∀ q, q ∈ ds →
        (2 ≤ length q)%nat
        ∧ ∀ pre a b post, q = pre ++ a :: b :: post →
            (a, b) ∈ graph_imports G
            ∧ mkImportPath a b ∉ whitelisted_paths c.
Proof.
  intros Himpl. rewrite check_dependencies_unfold. eexists _, _.
  split; [done|]. split; [done|]. intros q Hq.
  apply fold_updated_elem_of in Hq as [Hq|Hq]; [by apply elem_of_nil in Hq|].
  apply submitted_elem_of in Hq as (package & layer & U & D & _ & _ & _ & _ & Hfind).
  apply finding_elem_of in Hfind as (Hpath & _ & _).
  apply (find_path_sound _ _ Himpl) in Hpath. split.
  - by eapply import_chain_length.
  - by eapply import_chain_steps.
Qed.

Lemma X11_recorded_are_chains_witness :
  implements low_mid_high low_mid_high_imports
  ∧ ∃ c' ds,
      check_dependencies app_contract low_mid_high = Returned c'
      ∧ illegal_dependencies c' = Some ds
      ∧ ∀ q, q ∈ ds →
          (2 ≤ length q)%nat
          ∧ ∀ pre a b post, q = pre ++ a :: b :: post →
              (a, b) ∈ graph_imports low_mid_high_imports
              ∧ mkImportPath a b ∉ whitelisted_paths app_contract.
Proof.
  split; [apply low_mid_high_implements|].
  exact (X11_recorded_are_chains app_contract low_mid_high _
           low_mid_high_implements).
Defined.

(** ** More about loading *)

Section LoadingMore.

Implicit Types (s sep piece t rest : string).

Lemma string_length_app s t :
  String.length (s +:+ t) = (String.length s + String.length t)%nat.
Proof.
  induction s as [|a s IH]; [done|].
  rewrite string_app_cons. simpl. by rewrite IH.
Qed.

(** Passing the rest of a matched separator. *)
Lemma split_from_skip sep t piece rest :
  split_from sep (String.length t) piece (t +:+ rest)
  = split_from sep 0 piece rest.
Proof.
  induction t as [|a t IH]; [done|].
  rewrite string_app_cons. cbn [String.length split_from]. apply IH.
Qed.

Lemma split_from_not_nil sep (k : nat) piece s : split_from sep k piece s ≠ [].
Proof.
  revert k piece. induction s as [|a s IH]; intros k piece; [done|].
  cbn [split_from]. destruct k as [|k]; [|apply IH].
  destruct (String.prefix sep (String a s)); [done | apply IH].
Qed.

(** The step of [split] at an occurrence of the separator. *)
Lemma split_from_match (c : ascii) sep piece s :
  String.prefix (String c sep) s = true →
  ∃ rest, s = String c sep +:+ rest
          ∧ split_from (String c sep) 0 piece s
            = piece :: split_from (String c sep) 0 "" rest.
Proof.
  intros Hpre. destruct (prefix_app _ _ Hpre) as [rest ->].
  exists rest. split; [done|]. rewrite string_app_cons in *.
  cbn [split_from]. rewrite Hpre. cbn [String.length].
  rewrite Nat.sub_1_r. cbn [Nat.pred]. by rewrite split_from_skip.
Qed.

Lemma str_join_cons sep (x : string) (l : list string) :
  l ≠ [] → str_join sep (x :: l) = x +:+ sep +:+ str_join sep l.
Proof. by destruct l. Qed.

(** [sep.join(s.split(sep)) == s] *)
Lemma join_split_from (c : ascii) sep (n : nat) piece s :
  (String.length s ≤ n)%nat →
  str_join (String c sep) (split_from (String c sep) 0 piece s) = piece +:+ s.
Proof.
  revert piece s. induction n as [|n IH]; intros piece s Hlen.
  - destruct s; [|simpl in Hlen; lia]. simpl. by rewrite string_app_nil_r.
  - destruct s as [|a s]; [simpl; by rewrite string_app_nil_r|].
    destruct (String.prefix (String c sep) (String a s)) eqn:Hpre.
    + destruct (split_from_match c sep piece _ Hpre) as (rest & Hs & ->).
      rewrite str_join_cons by apply split_from_not_nil.
      rewrite IH.
      * by rewrite Hs.
      * rewrite Hs, string_length_app in Hlen. simpl in Hlen. lia.
    + cbn [split_from]. rewrite Hpre, IH by (simpl in Hlen; lia).
      by rewrite string_app_assoc.
Qed.

Lemma join_split s : str_join " <- " (str_split s " <- ") = s.
Proof. unfold str_split. by rewrite (join_split_from _ _ (String.length s)). Qed.

(** [split] up to the first separator after a name without spaces. *)
Lemma split_from_head piece (a rest : string) :
  space_free a = true →
  split_from " <- " 0 piece (a +:+ " <- " +:+ rest)
  = (piece +:+ a) :: split_from " <- " 0 "" rest.
Proof.
  revert piece. induction a as [|x a IH]; intros piece Ha.
  - change ("" +:+ " <- " +:+ rest) with (" <- " +:+ rest).
    assert (Hpre : String.prefix " <- " (" <- " +:+ rest) = true)
      by (by destruct rest).
    destruct (split_from_match " " "<- " piece _ Hpre) as (rest' & Heq & ->).
    apply (inj (String.append " <- ")) in Heq as <-.
    by rewrite string_app_nil_r.
  - cbn [space_free] in Ha. apply andb_true_iff in Ha as [Hx Ha].
    apply negb_true_iff, Ascii.eqb_neq in Hx.
    rewrite string_app_cons.
    cbn [split_from String.prefix]. destruct (ascii_dec " " x) as [<-|_]; [done|].
    by rewrite IH, string_app_assoc.
Qed.

(** The loop over the entries when all of them parse. *)
Lemma whitelist_loop_length (entries : list string) (acc r : list ImportPath) :
  for_each
    (λ whitelisted_paths whitelist_data,
       edge ←! parse_whitelist_entry whitelist_data;
       Returned (whitelisted_paths ++ [edge]))
    entries acc
  = Returned r →
  length r = (length acc + length entries)%nat.
Proof.
  revert acc. induction entries as [|x entries IH]; intros acc; simpl.
  - intros [= <-]. lia.
  - destruct (parse_whitelist_entry x) as [edge|]; [|done]. simpl.
    intros Hr. apply IH in Hr. rewrite length_app in Hr. simpl in Hr. lia.
Qed.

Lemma whitelist_loop_all_parse (entries : list string) (acc : list ImportPath) :
  (∀ e, e ∈ entries → ∃ edge, parse_whitelist_entry e = Returned edge) →
  ∃ r,
    for_each
      (λ whitelisted_paths whitelist_data,
         edge ←! parse_whitelist_entry whitelist_data;
         Returned (whitelisted_paths ++ [edge]))
      entries acc
    = Returned r.
Proof.
  revert acc. induction entries as [|x entries IH]; intros acc Hall; simpl.
  - by eexists.
  - destruct (Hall x) as [edge ->]; [by left|]. simpl.
    apply IH. intros e He. apply Hall. by right.
Qed.

Lemma imap_name (layers_data : list string) (n : nat) :
  name <$> imap (λ i layer_data, mkLayer (n + i) layer_data) layers_data
  = layers_data.
Proof.
  revert n. induction layers_data as [|x l IH]; intros n; [done|].
  cbn [imap fmap list_fmap name]. f_equal.
  rewrite <- (IH (S n)) at 2. f_equal. apply imap_ext.
  intros i y _. simpl. f_equal. lia.
Qed.

Lemma init_whitelist (key : string) (pk : list string) (ls : list Layer)
    (edges : list ImportPath) (r : bool) :
  whitelisted_paths (Contract_init key pk ls (Some edges) r) = edges.
Proof. by destruct edges. Qed.

(** A malformed entry makes [contract_from_yaml] raise. *)
Lemma contract_from_yaml_malformed (key : string)
    (data : gmap string (list string)) (entries : list string) (e : string) :
  data !! "whitelisted_paths" = Some entries → e ∈ entries →
  parse_whitelist_entry e = Raised ValueError →
  ∃ err, contract_from_yaml key data = Raised err
         ∧ (is_Some (data !! "layers") → err = ValueError).
Proof.
  intros Hentries He Hparse. unfold contract_from_yaml, getitem.
  rewrite Hentries. simpl.
  destruct (data !! "layers") as [layers_data|]; simpl.
  - rewrite (whitelist_loop_raises entries [] e He Hparse). by eexists.
  - eexists. split; [done|]. by intros [? ?].
Qed.

(** The loop of [get_contracts]. *)
Lemma contracts_loop_Returned
    (items : list (string * gmap string (list string)))
    (acc r : list Contract) :
  for_each
    (λ contracts item,
       contract ←! contract_from_yaml item.1 item.2;
       Returned (contracts ++ [contract]))
    items acc
  = Returned r
  ↔ ∃ cs, r = acc ++ cs
          ∧ Forall2 (λ item c, contract_from_yaml item.1 item.2 = Returned c)
              items cs.
Proof.
  revert acc. induction items as [|item items IH]; intros acc; simpl.
  - split.
    + intros [= <-]. exists []. by rewrite app_nil_r.
    + intros (cs & -> & Hall). apply Forall2_nil_inv_l in Hall as ->.
      by rewrite app_nil_r.
  - destruct (contract_from_yaml item.1 item.2) as [c|err] eqn:Hc; simpl.
    + rewrite IH. split.
      * intros (cs & -> & Hall). exists (c :: cs).
        split; [by rewrite <- app_assoc|]. by constructor.
      * intros (cs & -> & Hall).
        apply Forall2_cons_inv_l in Hall as (c' & cs' & Hc' & Hall & ->).
        rewrite Hc in Hc'. injection Hc' as <-. exists cs'.
        split; [by rewrite <- app_assoc | done].
    + split; [done|]. intros (cs & _ & Hall).
      apply Forall2_cons_inv_l in Hall as (c' & cs' & Hc' & _ & _).
      congruence.
Qed.

Lemma contracts_loop_raises
    (items : list (string * gmap string (list string)))
    (acc : list Contract) (item : string * gmap string (list string)) :
  item ∈ items →
  (∃ err, contract_from_yaml item.1 item.2 = Raised err) →
  ∃ err,
    for_each
      (λ contracts item,
         contract ←! contract_from_yaml item.1 item.2;
         Returned (contracts ++ [contract]))
      items acc
    = Raised err.
Proof.
  revert acc. induction items as [|x items IH]; intros acc Hin Hraise;
    [by apply elem_of_nil in Hin|].
  simpl. destruct (contract_from_yaml x.1 x.2) as [c|err] eqn:Hx; simpl.
  - apply IH; [|done]. apply elem_of_cons in Hin as [->|Hin]; [|done].
    destruct Hraise as [? ?]. congruence.
  - by eexists.
Qed.

Lemma string_snoc_inj (a : ascii) s t :
  s +:+ String a "" = t +:+ String a "" → s = t.
Proof.
  revert t. induction s as [|x s IH]; intros [|y t] Heq.
  - done.
  - rewrite string_app_cons in Heq. injection Heq as <- Heq.
    by destruct t.
  - rewrite string_app_cons in Heq. injection Heq as -> Heq.
    by destruct s.
  - rewrite !string_app_cons in Heq. injection Heq as -> Heq.
    f_equal. by apply IH.
Qed.

End LoadingMore.

(** X15.  An entry that parses is given back by writing its two names
    around the separator: nothing of the entry is lost or changed. *)
Theorem X15_parse_round_trip (whitelist_data : string) (edge : ImportPath) :
  parse_whitelist_entry whitelist_data = Returned edge →
  whitelist_data = importer edge +:+ " <- " +:+ imported edge.
Proof.
  unfold parse_whitelist_entry. pose proof (join_split whitelist_data) as Hjoin.
  destruct (str_split whitelist_data " <- ") as [|a [|b [|? ?]]]; [done..| |done].
  intros [= <-]. by rewrite <- Hjoin.
Qed.

Lemma X15_parse_round_trip_witness :
  parse_whitelist_entry "app.low <- app.high"
  = Returned (mkImportPath "app.low" "app.high")
  ∧ "app.low <- app.high"
    = importer (mkImportPath "app.low" "app.high") +:+ " <- "
      +:+ imported (mkImportPath "app.low" "app.high").
Proof.
  split; [reflexivity|].
  apply (X15_parse_round_trip "app.low <- app.high"). reflexivity.
Defined.

(** X16.  An entry in which the separator comes again after
    [importer <- imported] is refused with [ValueError], whatever follows;
    it is not cut short. *)
Theorem X16_second_separator (a b tail : string) :
  space_free a = true → space_free b = true →
  parse_whitelist_entry (a +:+ " <- " +:+ b +:+ " <- " +:+ tail)
  = Raised ValueError.
Proof.
  intros Ha Hb. unfold parse_whitelist_entry, str_split.
  rewrite !split_from_head by done.
  pose proof (split_from_not_nil " <- " 0 "" tail) as Hne.
  by destruct (split_from " <- " 0 "" tail).
Qed.

Lemma X16_second_separator_witness :
  parse_whitelist_entry ("app.low" +:+ " <- " +:+ "app.mid" +:+ " <- "
                         +:+ "app.high")
  = Raised ValueError.
Proof. apply X16_second_separator; reflexivity. Defined.

(** X12.  Without a ['layers'] key [contract_from_yaml] raises [KeyError]
    before it looks at anything else.  With it and without a ['packages']
    key, it raises [ValueError] when some whitelist entry does not parse
    and [KeyError] when all of them do: the whitelist is read first. *)
Theorem X12_missing_keys (key : string) (data : gmap string (list string)) :
  (data !! "layers" = None → contract_from_yaml key data = Raised KeyError)
  ∧ (is_Some (data !! "layers") → data !! "packages" = None →
       ((∀ e, e ∈ default [] (data !! "whitelisted_paths") →
              ∃ edge, parse_whitelist_entry e = Returned edge) →
        contract_from_yaml key data = Raised KeyError)
       ∧ (∀ e, e ∈ default [] (data !! "whitelisted_paths") →
               parse_whitelist_entry e = Raised ValueError →
               contract_from_yaml key data = Raised ValueError)).
Proof.
  unfold contract_from_yaml, getitem. split.
  - by intros ->.
  - intros [layers_data ->] ->. cbn [bind]. split.
    + intros Hall.
      by destruct (whitelist_loop_all_parse _ [] Hall) as [r ->].
    + intros e He Hparse. by rewrite (whitelist_loop_raises _ [] e He Hparse).
Qed.

(** X13.  A configuration without a ['whitelisted_paths'] key is read as
    one with an empty whitelist, and the contract it gives has no
    whitelisted path. *)
Theorem X13_whitelist_optional (key : string)
    (data : gmap string (list string)) :
  data !! "whitelisted_paths" = None →
  contract_from_yaml key data
  = contract_from_yaml key (<["whitelisted_paths" := []]> data)
  ∧ ∀ c, contract_from_yaml key data = Returned c → whitelisted_paths c = [].
Proof.
  intros Hnone. unfold contract_from_yaml, getitem.
  rewrite lookup_insert_eq, Hnone, !lookup_insert_ne by done.
  split; [done|]. intros c.
  destruct (data !! "layers"); [|done].
  destruct (data !! "packages"); [|done]. by intros [= <-].
Qed.

Lemma X13_whitelist_optional_witness :
  contract_from_yaml "flat" {[ "layers" := ["low"]; "packages" := ["app"] ]}
  = contract_from_yaml "flat"
      (<["whitelisted_paths" := []]>
         {[ "layers" := ["low"]; "packages" := ["app"] ]})
  ∧ ∀ c, contract_from_yaml "flat"
           {[ "layers" := ["low"]; "packages" := ["app"] ]} = Returned c →
         whitelisted_paths c = [].
Proof. apply X13_whitelist_optional. reflexivity. Defined.

(** X14.  A contract that [contract_from_yaml] returns has the key as its
    name, the packages of the configuration, one layer object of its own
    per entry of ['layers'] with the names in the same order, one
    whitelisted path per whitelist entry, [recursive] false, and no
    result yet: [is_kept] raises [RuntimeError]. *)
Theorem X14_loaded_contract (key : string) (data : gmap string (list string))
    (c : Contract) :
  contract_from_yaml key data = Returned c →
  contract_name c = key
  ∧ data !! "packages" = Some (packages c)
  ∧ data !! "layers" = Some (name <$> layers c)
  ∧ ident <$> layers c = seq 0 (length (layers c))
  ∧ NoDup (ident <$> layers c)
  ∧ length (whitelisted_paths c)
    = length (default [] (data !! "whitelisted_paths"))
  ∧ recursive c = false
  ∧ is_kept c = Raised RuntimeError.
Proof.
  unfold contract_from_yaml, getitem.
  destruct (data !! "layers") as [layers_data|]; [|done]. cbn [bind].
  destruct (for_each _ _ _) as [edges|] eqn:Hloop; [|done]. cbn [bind].
  destruct (data !! "packages") as [pk|]; [|done]. cbn [bind].
  intros [= <-]. rewrite init_whitelist. cbn [layers Contract_init].
  change (imap (λ i layer_data, mkLayer i layer_data) layers_data)
    with (imap (λ i layer_data, mkLayer (0 + i) layer_data) layers_data).
  rewrite imap_name, imap_ident, length_imap.
  apply whitelist_loop_length in Hloop.
  repeat (split; [done|]). split; [apply NoDup_seq|]. done.
Qed.

Lemma X14_loaded_contract_witness :
  contract_from_yaml "layering" app_config
  = Returned
      (Contract_init "layering" ["app"] [low; mid; high]
         (Some [mkImportPath "app.low" "app.high";
                mkImportPath "app.low" "app.mid"]) false)
  ∧ NoDup (ident <$> [low; mid; high]).
Proof.
  assert (H : contract_from_yaml "layering" app_config
              = Returned
                  (Contract_init "layering" ["app"] [low; mid; high]
                     (Some [mkImportPath "app.low" "app.high";
                            mkImportPath "app.low" "app.mid"]) false))
    by reflexivity.
  split; [exact H|].
  exact (proj1 (proj2 (proj2 (proj2 (proj2
           (X14_loaded_contract "layering" app_config _ H)))))).
Defined.

(** X17.  When the file opens and [yaml.load] returns, [get_contracts]
    returns a list exactly when [contract_from_yaml] returns for every
    item, and the list holds those contracts in the order of the file.  A
    whitelist entry without separator in any item makes the whole call
    raise what [contract_from_yaml] raised: no contract is returned. *)
Theorem X17_get_contracts (w : World) (path file : string)
    (items : list (string * gmap string (list string))) :
  open_file w (os_path_join w path "layers.yml") = Some file →
  yaml_load w file = Some items →
  (∀ cs, get_contracts w path = Loaded cs
         ↔ Forall2 (λ item c, contract_from_yaml item.1 item.2 = Returned c)
             items cs)
  ∧ (∀ item entries e,
       item ∈ items → item.2 !! "whitelisted_paths" = Some entries →
       e ∈ entries → ¬ occurs_in " <- " e →
       ∃ err, get_contracts w path = LoadFailed (ContractError err)).
Proof.
  intros Hopen Hyaml. unfold get_contracts. rewrite Hopen, Hyaml. split.
  - intros cs.
    destruct (for_each _ items []) as [r|err] eqn:Hloop.
    + apply contracts_loop_Returned in Hloop as (cs' & -> & Hall).
      split; [by intros [= <-] | ].
      intros Hall'. f_equal. simpl.
      clear -Hall Hall'. revert cs cs' Hall Hall'.
      induction items as [|x items IH]; intros cs cs' Hall Hall'.
      * apply Forall2_nil_inv_l in Hall as ->.
        by apply Forall2_nil_inv_l in Hall' as ->.
      * apply Forall2_cons_inv_l in Hall as (c1 & cs1 & Hc1 & Hall & ->).
        apply Forall2_cons_inv_l in Hall' as (c2 & cs2 & Hc2 & Hall' & ->).
        f_equal; [congruence | by apply IH].
    + split; [done|]. intros Hall.
      assert (Hret : for_each
                (λ contracts item,
                   contract ←! contract_from_yaml item.1 item.2;
                   Returned (contracts ++ [contract]))
                items [] = Returned ([] ++ cs))
        by (apply contracts_loop_Returned; by exists cs).
      congruence.
  - intros item entries e Hitem Hentries He Hno.
    destruct (contract_from_yaml_malformed item.1 item.2 entries e Hentries He
                (parse_missing_separator e Hno)) as (err & Herr & _).
    destruct (contracts_loop_raises items [] item Hitem) as [err' ->];
      by eexists.
Qed.

Lemma X17_get_contracts_witness :
  get_contracts (app_world app_config) "proj"
  = Loaded
      [Contract_init "layering" ["app"] [low; mid; high]
         (Some [mkImportPath "app.low" "app.high";
                mkImportPath "app.low" "app.mid"]) false;
       Contract_init "flat" ["app"] [low] None false]
  ∧ ∃ err, get_contracts (app_world app_config_malformed) "proj"
           = LoadFailed (ContractError err).
Proof.
  split.
  - apply (proj1 (X17_get_contracts (app_world app_config) "proj" "text" _
                    eq_refl eq_refl)).
    repeat constructor.
  - apply (proj2 (X17_get_contracts (app_world app_config_malformed) "proj"
                    "text" _ eq_refl eq_refl)
             ("layering", app_config_malformed)
             ["app.low <- app.high"; "app.low<-app.mid"] "app.low<-app.mid").
    + left.
    + reflexivity.
    + right. left.
    + by apply space_free_no_separator.
Defined.

(** X18.  [get_contracts] fails with [OSError] exactly when the file
    [layers.yml] of the project cannot be opened, and with
    [ContractParseError] exactly when it opens and [yaml.load] raises;
    what [yaml.load] raised is not passed on. *)
Theorem X18_load_failures (w : World) (path : string) :
  (get_contracts w path = LoadFailed OSError
   ↔ open_file w (os_path_join w path "layers.yml") = None)
  ∧ (get_contracts w path = LoadFailed ContractParseError
     ↔ ∃ file, open_file w (os_path_join w path "layers.yml") = Some file
               ∧ yaml_load w file = None).
Proof.
  unfold get_contracts.
  destruct (open_file w (os_path_join w path "layers.yml")) as [file|].
  - destruct (yaml_load w file) as [items|] eqn:Hyaml.
    + destruct (for_each _ items []); split; split; try done;
        intros (file' & [= <-] & ?); congruence.
    + split; [done|]. split; [by exists file | done].
  - split; [done|]. split; [done | by intros (? & ? & _)].
Qed.

(** X19.  The printed forms tell objects apart by their names: two layers
    (two contracts) have the same [repr] exactly when they have the same
    name, and a layer is never printed as a contract. *)
Theorem X19_repr (a b : Layer) (c d : Contract) :
  (Layer_repr a = Layer_repr b ↔ name a = name b)
  ∧ (Contract_repr c = Contract_repr d ↔ contract_name c = contract_name d)
  ∧ Layer_repr a ≠ Contract_repr c
  ∧ Layer_repr a = "<Layer: " +:+ name a +:+ ">"
  ∧ Contract_repr c = "<Contract: " +:+ contract_name c +:+ ">".
Proof.
  unfold Layer_repr, Contract_repr, Layer_str, Contract_str.
  split; [|split; [|split; [|done]]].
  - split; [|by intros ->]. intros Heq.
    do 3 apply (inj (String.append _)) in Heq. by apply string_snoc_inj in Heq.
  - split; [|by intros ->]. intros Heq.
    do 3 apply (inj (String.append _)) in Heq. by apply string_snoc_inj in Heq.
  - intros Heq. apply (inj (String.append "<")) in Heq. discriminate Heq.
Qed.
